(** * AP-Bots: token-budget manager and retrieval context assembler

    A shallow embedding of [AP_Bots/models.py] (class [LLM]: token counting,
    chat-history truncation, context fitting) and of [retriever.py] (class
    [Retriever]: neighbour ranking, ranking cache, exemplar assembly), with
    the properties of the specification stated over it.

    Conventions of the embedding:
    - Python integers are [Z]; lengths and list indices are [nat].
    - Python floats (similarity scores, the 0.2 history share) are exact
      rationals [Q]; [int(x)] is truncation toward zero.
    - A Python list that is mutated in place and shared with the caller (the
      chat history) lives in a heap of list objects, addressed by location.
    - A raised exception, and a loop that does not stop, are outcomes of a
      call next to a normal return. *)

From Stdlib Require Import ZArith QArith Lia String Ascii Permutation Sorted.
From stdpp Require Import base option list gmap strings.

Local Open Scope string_scope.
Local Open Scope Z_scope.

(** ** Outcomes of a call *)

Inductive exn := TypeError | IndexError | AttributeError | ValueError | ProviderError.

(** A call on a state [St] returns a value, raises, or is still running when
    the fuel given to an unbounded [while] loop is used up. *)
Inductive outcome (St A : Type) :=
| Ok (a : A) (s : St)
| Raise (e : exn) (s : St)
| OutOfFuel.
Arguments Ok {St A} a s.
Arguments Raise {St A} e s.
Arguments OutOfFuel {St A}.

(** Code that reads and writes a state [St]. *)
Definition M (St A : Type) := St → outcome St A.

Definition ret {St A} (a : A) : M St A := fun s => Ok a s.
Definition raise {St A} (e : exn) : M St A := fun s => Raise e s.
Definition bind {St A B} (m : M St A) (k : A → M St B) : M St B :=
  fun s => match m s with
           | Ok a s' => k a s'
           | Raise e s' => Raise e s'
           | OutOfFuel => OutOfFuel
           end.
Definition get_state {St} : M St St := fun s => Ok s s.

Notation "'let!' x ':=' m 'in' k" := (bind m (fun x => k))
  (at level 10, x pattern, m at level 100, k at level 200).

(** The state in which a call stops, when it stops. *)
Definition final_state {St A} (o : outcome St A) : option St :=
  match o with
  | Ok _ s => Some s
  | Raise _ s => Some s
  | OutOfFuel => None
  end.

(** Code that touches no state returns a value or raises. *)
Definition result (A : Type) : Type := exn + A.

Definition bind_result {A B} (r : result A) (k : A → result B) : result B :=
  match r with
  | inl e => inl e
  | inr a => k a
  end.

Notation "'let?' x ':=' r 'in' k" := (bind_result r (fun x => k))
  (at level 10, x pattern, r at level 100, k at level 200).

Definition lift {St A} (r : result A) : M St A :=
  fun s => match r with
           | inl e => Raise e s
           | inr a => Ok a s
           end.

(** ** Python list and string primitives *)

Definition nl : string := String (ascii_of_nat 10) EmptyString.

(** ["\n".join(l)] *)
Definition join_lines (l : list string) : string := String.concat nl l.

(** [l[:k]] *)
Definition slice_to {A} (k : Z) (l : list A) : list A :=
  if 0 <=? k then take (Z.to_nat k) l
  else take (length l - Z.to_nat (- k)) l.

(** [l[start:]] *)
Definition slice_from {A} (start : Z) (l : list A) : list A :=
  if 0 <=? start then drop (Z.to_nat start) l
  else drop (length l - Z.to_nat (- start)) l.

(** [int(q)]: truncation toward zero. *)
Definition int_of_Q (q : Q) : Z := Z.quot (Qnum q) (Zpos (Qden q)).

(** * models.py *)

Record turn := Turn { role : string; content : string }.

(** A prompt is a plain string or a list of chat turns. *)
Inductive prompt :=
| PStr (s : string)
| PTurns (l : list turn).

(** The fields of [LLM] the budget manager reads. The four token counters are
    the external counting services, one per model family; each returns a
    count. [max_gen_tokens] is [self.gen_params[self.name_token_var]]. *)
Record LLM := mkLLM {
  family : string;
  context_length : Z;
  max_gen_tokens : Z;
  tiktoken_len : string → nat;
  gemini_total_tokens : string → nat;
  claude_count_tokens : string → nat;
  tokenizer_len : string → nat
}.

(** Chat-history lists are objects of a heap. *)
Definition loc := nat.
Abbreviation heap := (gmap loc (list turn)).

Definition count_tokens (llm : LLM) (p : prompt) : Z :=
  let text := match p with
              | PTurns l => join_lines (map content l)
              | PStr s => s
              end in
  if String.eqb (family llm) "GPT" then Z.of_nat (tiktoken_len llm text)
  else if String.eqb (family llm) "GEMINI" then Z.of_nat (gemini_total_tokens llm text)
  else if String.eqb (family llm) "CLAUDE" then Z.of_nat (claude_count_tokens llm text)
  else Z.of_nat (tokenizer_len llm text).

(** [None] when no space is left. *)
Definition get_avail_space (llm : LLM) (p : prompt) : option Z :=
  let avail_space := context_length llm - max_gen_tokens llm - count_tokens llm p in
  if avail_space <=? 0 then None else Some avail_space.

(** [sum(self.count_tokens(tm['content']) for tm in chat_history)] *)
Definition hist_tokens (llm : LLM) (hist : list turn) : Z :=
  foldr (fun tm acc => count_tokens llm (PStr (content tm)) + acc) 0 hist.

(** The [while] loop of [trunc_chat_history]. [hist] is the current content
    of the list object at [r]; every [pop(0)] is written to the heap. *)
Fixpoint trunc_loop (llm : LLM) (r : loc) (hist_dedic_space total_hist_tokens : Z)
    (hist : list turn) : M heap unit :=
  match hist with
  | [] =>
      if hist_dedic_space <? total_hist_tokens then raise IndexError else ret tt
  | removed_message :: rest =>
      if hist_dedic_space <? total_hist_tokens then
        let! _ := (fun h => Ok tt (<[r := rest]> h)) in
        trunc_loop llm r hist_dedic_space
          (total_hist_tokens - count_tokens llm (PStr (content removed_message))) rest
      else ret tt
  end.

(** The argument [hist_dedic_space] is overwritten on the first line of the
    body, as in the source. *)
Definition trunc_chat_history (llm : LLM) (chat_history : loc) (hist_dedic_space : Q)
  : M heap loc :=
  let hist_dedic_space := int_of_Q (inject_Z (context_length llm) * (2 # 10)) in
  let! h := get_state in
  let total_hist_tokens := hist_tokens llm (h !!! chat_history) in
  let! _ := trunc_loop llm chat_history hist_dedic_space total_hist_tokens
              (h !!! chat_history) in
  ret chat_history.

(** The space the body of [trunc_chat_history] dedicates to the history,
    [int(self.context_length*0.2)]. *)
Definition hist_budget (llm : LLM) : Z :=
  int_of_Q (inject_Z (context_length llm) * (2 # 10)).

(** The [while True] loop of [prepare_context]. *)
Fixpoint fitting_loop (llm : LLM) (fuel : nat) (avail_space : Z) (context : list string)
  : option string :=
  match fuel with
  | O => None
  | S fuel' =>
      let info := join_lines context in
      if avail_space <? count_tokens llm (PStr info) then
        fitting_loop llm fuel' avail_space (removelast context)
      else Some info
  end.

(** What [prepare_context] returns: the joined context, or [-1]. *)
Inductive prepared :=
| Info (info : string)
| Sentinel.

Definition str_truthy (s : string) : bool :=
  match s with EmptyString => false | _ => true end.

(** [if isinstance(prompt, str): prompt = [{"role": "user", "content": prompt}]] *)
Definition as_turns (p : prompt) : list turn :=
  match p with
  | PStr s => [Turn "user" s]
  | PTurns l => l
  end.

(** [self.count_tokens(query) if query else 0] *)
Definition query_tokens (llm : LLM) (query : option string) : Z :=
  match query with
  | Some q => if str_truthy q then count_tokens llm (PStr q) else 0
  | None => 0
  end.

Definition prepare_context (llm : LLM) (fuel : nat) (p : prompt) (context : list string)
    (query : option string) (chat_history : loc) : M heap prepared :=
  let! h := get_state in
  let! chat_history :=
    (match h !!! chat_history with
     | [] => ret chat_history
     | _ :: _ => trunc_chat_history llm chat_history (2 # 10)
     end) in
  let p := as_turns p in
  let query_len := query_tokens llm query in
  let! h := get_state in
  match get_avail_space llm (PTurns (p ++ h !!! chat_history)%list) with
  | None => raise TypeError
  | Some space =>
      let avail_space := space - query_len in
      if avail_space =? 0 then ret Sentinel
      else fun h => match fitting_loop llm fuel avail_space context with
                    | Some info => Ok (Info info) h
                    | None => OutOfFuel
                    end
  end.

(** A model whose tokenizer yields one token per character. *)
Definition char_llm (ctx gen : Z) : LLM :=
  mkLLM "LLAMA" ctx gen String.length String.length String.length String.length.

(** * retriever.py *)

(** ** Collaborators *)

(** The embedding model and numpy, as far as the retriever uses them.
    [embed] is [retr_model.encode] on one text and [sim] the similarity of
    two embeddings; [retr_model.similarity] on two batches is the matrix of
    their pairwise [sim], unless the call raises, which [similarity_raises]
    decides. [argsort] is [np.argsort] on a one-dimensional array. *)
Record Backend := mkBackend {
  vec : Type;
  embed : string → vec;
  sim : vec → vec → Q;
  similarity_raises : list vec → list vec → bool;
  argsort : list Q → list nat
}.

(** [retr_gt_name] of [dataset.get_var_names()]: [None], one field name, or
    a pair (ground truth, rating). *)
Inductive gt_name :=
| GtNone
| GtStr (name : string)
| GtPair (gt rating : string).

Record Dataset := mkDataset {
  retr_gt_name : gt_name;
  retr_prompt_name : string;
  get_ratings : nat → list string
}.

(** An array of embeddings: one vector (shape [(d,)]), a batch of vectors
    (shape [(n, d)], also without any row), or the array of shape [(0,)],
    which is what [retr_model.encode] returns for an empty list of texts. *)
Inductive ndarray (V : Type) :=
| Arr1 (v : V)
| Arr2 (rows : list V)
| Arr0.
Arguments Arr1 {V} v.
Arguments Arr2 {V} rows.
Arguments Arr0 {V}.

(** What [_encode] accepts: a text, a list of texts, or an array. *)
Inductive docs (V : Type) :=
| DStr (s : string)
| DList (l : list string)
| DArr (a : ndarray V).
Arguments DStr {V} s.
Arguments DList {V} l.
Arguments DArr {V} a.

(** What [.squeeze().tolist()] gives: a float, a list, or a list of lists. *)
Inductive scores :=
| SFloat (x : Q)
| SList (l : list Q)
| SMatrix (m : list (list Q)).

Inductive indices :=
| IList (l : list nat)
| IMatrix (m : list (list nat)).

(** ** Python primitives of the retriever *)

Definition index {A} (l : list A) (i : nat) : result A :=
  match l !! i with
  | Some x => inr x
  | None => inl IndexError
  end.

Fixpoint mapM {A B} (f : A → result B) (l : list A) : result (list B) :=
  match l with
  | [] => inr []
  | x :: l' =>
      let? y := f x in
      let? ys := mapM f l' in
      inr (y :: ys)
  end.

Fixpoint foldM {St A B} (f : B → A → M St B) (b : B) (l : list A) : M St B :=
  match l with
  | [] => ret b
  | x :: l' =>
      let! b' := f b x in
      foldM f b' l'
  end.

(** [enumerate(l)] *)
Definition enumerate {A} (l : list A) : list (nat * A) :=
  zip (seq 0 (length l)) l.

Definition upper (c : ascii) : ascii :=
  let n := nat_of_ascii c in
  if (97 <=? n)%nat && (n <=? 122)%nat then ascii_of_nat (n - 32) else c.

Definition lower (c : ascii) : ascii :=
  let n := nat_of_ascii c in
  if (65 <=? n)%nat && (n <=? 90)%nat then ascii_of_nat (n + 32) else c.

Fixpoint lower_all (s : string) : string :=
  match s with
  | EmptyString => EmptyString
  | String c s' => String (lower c) (lower_all s')
  end.

(** [s.capitalize()], on ASCII letters. *)
Definition capitalize (s : string) : string :=
  match s with
  | EmptyString => EmptyString
  | String c s' => String (upper c) (lower_all s')
  end.

(** [x.sum(axis=1)] *)
Definition row_sums (m : list (list Q)) : list Q :=
  map (fun row => foldr Qplus 0%Q row) m.

(** [np.argmax] keeps the first index of the largest value. *)
Fixpoint argmax_from (best : nat) (best_val : Q) (i : nat) (l : list Q) : nat :=
  match l with
  | [] => best
  | x :: l' =>
      if Qle_bool x best_val then argmax_from best best_val (S i) l'
      else argmax_from i x (S i) l'
  end.

Definition argmax (l : list Q) : result nat :=
  match l with
  | [] => inl ValueError
  | x :: l' => inr (argmax_from 0 x 1 l')
  end.

(** [a.squeeze().tolist()] for a matrix [m] of [nq] rows and [nd] columns. *)
Definition squeeze_tolist (nq nd : nat) (m : list (list Q)) : scores :=
  match nq, nd with
  | 1%nat, 1%nat => SFloat (nth 0 (nth 0 m []) 0%Q)
  | 1%nat, _ => SList (nth 0 m [])
  | _, 1%nat => SList (map (fun row => nth 0 row 0%Q) m)
  | _, _ => SMatrix m
  end.

(** ** The ranking *)

Definition _encode (be : Backend) (d : docs (vec be)) : ndarray (vec be) :=
  match d with
  | DArr a => a
  | DStr s => Arr1 (embed be s)
  | DList [] => Arr0
  | DList l => Arr2 (map (embed be) l)
  end.

(** The embeddings in an array. *)
Definition batch {V} (a : ndarray V) : list V :=
  match a with
  | Arr1 v => [v]
  | Arr2 rows => rows
  | Arr0 => []
  end.

(** The number of vectors the similarity call takes an array for: a
    one-dimensional array counts as one vector, also the array of shape
    [(0,)], a vector without components. *)
Definition n_vectors {V} (a : ndarray V) : nat :=
  match a with
  | Arr1 _ => 1
  | Arr2 rows => length rows
  | Arr0 => 1
  end.

(** [self.retr_model.similarity(a, b)]. Of two arrays of shape [(0,)] the
    similarity is the one-by-one matrix of 0. Between an array of shape
    [(0,)] and embeddings that have components the shapes do not match, and
    the call raises (a [RuntimeError] of the library, [ProviderError]
    here). *)
Definition similarity (be : Backend) (a b : ndarray (vec be)) : result (list (list Q)) :=
  match a, b with
  | Arr0, Arr0 => inr [[0%Q]]
  | Arr0, _ | _, Arr0 => inl ProviderError
  | _, _ =>
      if similarity_raises be (batch a) (batch b) then inl ProviderError
      else inr (map (fun q => map (sim be q) (batch b)) (batch a))
  end.

Definition _neural_retrieval (be : Backend) (queries documents : docs (vec be))
  : result (scores * indices) :=
  let query_embeds := _encode be queries in
  let doc_embeds := _encode be documents in
  let? m := similarity be query_embeds doc_embeds in
  let similarities :=
    squeeze_tolist (n_vectors query_embeds) (n_vectors doc_embeds) m in
  let sorted_idxs :=
    match similarities with
    | SFloat _ => IList [0%nat]
    | SList l => IList (reverse (argsort be l))
    | SMatrix rows => IMatrix (reverse (map (argsort be) rows))
    end in
  let similarities :=
    match similarities with
    | SFloat x => SList [x]
    | _ => similarities
    end in
  inr (similarities, sorted_idxs).

Definition get_retrieval_results (be : Backend) (queries retr_texts : docs (vec be))
  : result (scores * indices) :=
  _neural_retrieval be queries retr_texts.

(** A result of the ranking that holds no score, and one that holds no
    index: an empty list, or a list of empty lists. *)
Definition no_score (s : scores) : Prop :=
  match s with
  | SFloat _ => False
  | SList l => l = []
  | SMatrix m => Forall (fun row => row = []) m
  end.

Definition no_index (i : indices) : Prop :=
  match i with
  | IList l => l = []
  | IMatrix m => Forall (fun row => row = []) m
  end.

Definition semantic_consensus_weighting (be : Backend) (outputs : list string)
  : result string :=
  let embeds := _encode be (DList outputs) in
  let? similarity_matrix := similarity be embeds embeds in
  let aggregated_scores := row_sums similarity_matrix in
  let? best_response_index := argmax aggregated_scores in
  index outputs best_response_index.

(** ** Exemplar strings *)

(** [f"{name.capitalize()}:\n{value}"] *)
Definition field (name value : string) : string :=
  capitalize name +:+ ":" +:+ nl +:+ value.

(** One pass of the loop [for j in range(max_range)] of
    [contrastive_retrieval], for the exemplar subject [ce]. An empty field
    name is as false as [None]. *)
Definition ce_string (ds : Dataset) (retr_texts retr_gts : list (list string))
    (doc_ratings : list string) (ce j : nat) : result string :=
  let? texts := index retr_texts ce in
  let? text := index texts j in
  match retr_gt_name ds with
  | GtPair gt rating =>
      let? gts := index retr_gts ce in
      let? g := index gts j in
      let? r := index doc_ratings j in
      inr (field (retr_prompt_name ds) text +:+ nl +:+ field gt g +:+ nl +:+ field rating r)
  | GtStr name =>
      if str_truthy name then
        let? gts := index retr_gts ce in
        let? g := index gts j in
        inr (field (retr_prompt_name ds) text +:+ nl +:+ field name g)
      else inr (field (retr_prompt_name ds) text)
  | GtNone => inr (field (retr_prompt_name ds) text)
  end.

(** The body of the loop [for ce in ce_idxs]. *)
Definition ce_example (ds : Dataset) (retr_texts retr_gts : list (list string))
    (ce_k : Z) (ce : nat) : result (list string) :=
  let? texts := index retr_texts ce in
  let max_range :=
    if Z.of_nat (length texts) <? ce_k then Z.of_nat (length texts) else ce_k in
  let doc_ratings :=
    match retr_gt_name ds with
    | GtPair _ _ => get_ratings ds ce
    | _ => []
    end in
  mapM (ce_string ds retr_texts retr_gts doc_ratings ce) (seq 0 (Z.to_nat max_range)).

Definition contrastive_retrieval (be : Backend) (ds : Dataset) (queries : list string)
    (retr_texts retr_gts : list (list string)) (num_ce ce_k : Z)
  : result (list (list (list string))) :=
  let? (_, ce_retr_res) := get_retrieval_results be (DList queries) (DList queries) in
  match ce_retr_res with
  | IMatrix rows =>
      mapM (fun ce_retr =>
              let ce_idxs := slice_from (- num_ce) ce_retr in
              mapM (ce_example ds retr_texts retr_gts ce_k) ce_idxs) rows
  | IList [] => inr []
  | IList (_ :: _) => inl TypeError
  end.

(** ** The ranking cache *)

(** The cache file of this retriever: absent, holding a list of rankings, or
    truncated, that is opened for writing and not holding a complete list
    yet. [json.dump] followed by [json.load] gives back a list of lists of
    integers as it was. *)
Inductive file :=
| Absent
| Truncated
| Saved (rankings : list (list nat)).

(** The rankings that can be read back from a file. *)
Definition readable (f : file) : option (list (list nat)) :=
  match f with
  | Absent => Some []
  | Truncated => None
  | Saved rankings => Some rankings
  end.

(** The file now and the states it has been in, latest first. A crash of the
    process leaves the file in one of these states. *)
Record disk := mkDisk {
  now : file;
  before : list file
}.

Definition write (f : file) : M disk unit :=
  fun d => Ok tt (mkDisk f (now d :: before d)).

(** A missing file is an empty cache; [json.load] raises on a file that
    holds no complete list (a [JSONDecodeError], which is a [ValueError]). *)
Definition check_file : M disk (list (list nat)) :=
  fun d => match now d with
           | Absent => Ok [] d
           | Saved all_idxs => Ok all_idxs d
           | Truncated => Raise ValueError d
           end.

(** [open(file_path, "w")] empties the file, then [json.dump] fills it. *)
Definition save_file (obj : list (list nat)) : M disk unit :=
  let! _ := write Truncated in
  write (Saved obj).

(** The disk after a complete [save_file]. *)
Definition flushed (d : disk) (obj : list (list nat)) : disk :=
  mkDisk (Saved obj) (Truncated :: now d :: before d).

(** ** get_context *)

(** The example strings of one query, from its ranked neighbours. *)
Definition build_examples (ds : Dataset) (i : nat) (retr_text retr_gt : list string)
    (k : Z) (sorted_idxs : list nat) : result (list string) :=
  let? texts := mapM (index retr_text) (slice_to k sorted_idxs) in
  let? gts := mapM (index retr_gt) (slice_to k sorted_idxs) in
  let? doc_ratings :=
    (match retr_gt_name ds with
     | GtPair _ _ => mapM (index (get_ratings ds i)) (slice_to k sorted_idxs)
     | _ => inr []
     end) in
  mapM (fun '(j, (text, gt)) =>
          if String.eqb text gt then inr (field (retr_prompt_name ds) text)
          else match retr_gt_name ds with
               | GtPair g rating =>
                   let? r := index doc_ratings j in
                   inr (field (retr_prompt_name ds) text +:+ nl +:+ field g gt
                        +:+ nl +:+ field rating r)
               | GtStr name =>
                   inr (field (retr_prompt_name ds) text +:+ nl +:+ field name gt +:+ nl)
               | GtNone => inl AttributeError
               end)
       (enumerate (zip texts gts)).

(** The local variables the loop of [get_context] carries. *)
Record ctx_state := mkCtx {
  all_idxs : list (list nat);
  all_examples : list (list string)
}.

(** [(i+1) % 500 == 0 or i+1 == len(queries)] *)
Definition flush_due (n_queries i : nat) : bool :=
  (((i + 1) mod 500 =? 0) || (i + 1 =? n_queries))%nat.

(** The body of the loop [for i, query in enumerate(queries)]. *)
Definition get_context_step (be : Backend) (ds : Dataset) (n_queries : nat)
    (retr_texts retr_gts : list (list string)) (k : Z)
    (st : ctx_state) (iq : nat * string) : M disk ctx_state :=
  let '(i, query) := iq in
  let! retr_text := lift (index retr_texts i) in
  let! retr_gt := lift (index retr_gts i) in
  let! (sorted_idxs, idxs) :=
    (if (i <? length (all_idxs st))%nat then
       let! sorted_idxs := lift (index (all_idxs st) i) in
       ret (sorted_idxs, all_idxs st)
     else
       let! (_, res) := lift (get_retrieval_results be (DStr query) (DList retr_text)) in
       match res with
       | IList sorted_idxs =>
           let idxs := (all_idxs st ++ [sorted_idxs])%list in
           let! _ := (if flush_due n_queries i then save_file idxs else ret tt) in
           ret (sorted_idxs, idxs)
       | IMatrix _ => raise TypeError
       end) in
  let! examples := lift (build_examples ds i retr_text retr_gt k sorted_idxs) in
  ret (mkCtx idxs (all_examples st ++ [examples])%list).

(** The run of [get_context] up to and including its first [n] passes
    through the loop. *)
Definition get_context_upto (n : nat) (be : Backend) (ds : Dataset) (queries : list string)
    (retr_texts retr_gts : list (list string)) (k : Z) : M disk ctx_state :=
  let! cached := check_file in
  foldM (get_context_step be ds (length queries) retr_texts retr_gts k)
        (mkCtx cached []) (take n (enumerate queries)).

(** [get_context] returns a flat list of empty strings for [k == 0] and a
    list of example lists otherwise. *)
Inductive context_out :=
| Flat (l : list string)
| Nested (l : list (list string)).

Definition get_context (be : Backend) (ds : Dataset) (queries : list string)
    (retr_texts retr_gts : list (list string)) (k : Z) : M disk context_out :=
  if k =? 0 then ret (Flat (replicate (length queries) EmptyString))
  else
    let! st := get_context_upto (length queries) be ds queries retr_texts retr_gts k in
    ret (Nested (all_examples st)).

(** Every list of rankings the file has held is a prefix of the list it
    holds now. *)
Definition history_kept (d : disk) : Prop :=
  ∀ (f : file) (old : list (list nat)),
    f ∈ before d → readable f = Some old →
    ∃ c : list (list nat), readable (now d) = Some c ∧ old `prefix_of` c.

(** What the loop of [get_context] maintains between the cache in memory
    [idxs] and the cache file, before its pass [i]: the file holds a prefix
    [c] of the list, the entries not yet in the file are at most the length
    of the list modulo 500, nothing at all is pending while the loop still
    reads from the cache or once the last query is done, the file has been
    written only with a multiple of 500 rankings or with those of all the
    queries, and it has kept what it ever held. *)
Definition cache_inv (n_queries i : nat) (idxs : list (list nat)) (d : disk) : Prop :=
  ∃ c : list (list nat),
    readable (now d) = Some c ∧
    c `prefix_of` idxs ∧
    (length idxs - length c ≤ length idxs mod 500)%nat ∧
    (i ≤ length idxs)%nat ∧
    ((i < length idxs)%nat → c = idxs) ∧
    ((n_queries ≤ i)%nat → c = idxs) ∧
    (before d = [] ∨ (length c mod 500 = 0)%nat ∨ length c = n_queries) ∧
    history_kept d.

(** ** Assumptions on the collaborators *)

(** [np.argsort] returns the indices of its argument in some order. *)
Definition argsort_permutes (be : Backend) : Prop :=
  ∀ l : list Q, argsort be l ≡ₚ seq 0 (length l).

(** The document collection is index-aligned: each of the first [n] subjects
    has its texts, at least as many ground truths, and, when the dataset has
    ratings, at least as many ratings. *)
Definition aligned (ds : Dataset) (n : nat) (retr_texts retr_gts : list (list string))
  : Prop :=
  ∀ ce : nat, (ce < n)%nat →
    ∃ texts gts : list string,
      retr_texts !! ce = Some texts ∧ retr_gts !! ce = Some gts ∧
      (length texts ≤ length gts)%nat ∧
      match retr_gt_name ds with
      | GtPair _ _ => (length texts ≤ length (get_ratings ds ce))%nat
      | _ => True
      end.

(** [np.argsort] lists the indices by ascending value. *)
Definition argsort_sorts (be : Backend) : Prop :=
  ∀ (l : list Q) (i j a b : nat) (x y : Q),
    (i ≤ j)%nat →
    argsort be l !! i = Some a → argsort be l !! j = Some b →
    l !! a = Some x → l !! b = Some y →
    (x <= y)%Q.

(** ** Sample collaborators *)

(** A stable ascending insertion sort on (score, index) pairs: one possible
    [np.argsort]. *)
Fixpoint insert_scored (x : Q * nat) (l : list (Q * nat)) : list (Q * nat) :=
  match l with
  | [] => [x]
  | y :: l' => if Qle_bool (fst x) (fst y) then x :: l else y :: insert_scored x l'
  end.

Definition stable_argsort (l : list Q) : list nat :=
  map snd (foldr insert_scored [] (zip l (seq 0 (length l)))).

(** Exact-match embeddings: a text is its own embedding, and two embeddings
    are similar (1) when equal and dissimilar (0) otherwise. The similarity
    call never raises on embeddings. *)
Definition exact_match : Backend :=
  mkBackend string (fun s => s)
            (fun a b => if String.eqb a b then 1%Q else 0%Q)
            (fun _ _ => false) stable_argsort.

(** A dataset with a prompt field and one ground-truth field. *)
Definition plain_dataset : Dataset :=
  mkDataset (GtStr "title") "abstract" (fun _ => []).

(** * models.py: the configuration of a model *)

(** [s.endswith(suffix)] *)
Definition ends_with (suffix s : string) : bool :=
  if (String.length suffix <=? String.length s)%nat
  then String.eqb (substring (String.length s - String.length suffix)
                             (String.length suffix) s) suffix
  else false.

(** [s.split("-")[0]]: the text before the first dash. *)
Fixpoint before_dash (s : string) : string :=
  match s with
  | EmptyString => EmptyString
  | String c s' => if Ascii.eqb c "-" then EmptyString else String c (before_dash s')
  end.

(** [self.family], as [__init__] sets it. *)
Definition family_of (model_name : string) : string := before_dash model_name.

Inductive model_type := GROQ | GGUF | DSAPI | Proprietary | Default.

Definition get_model_type (model_name : string) : model_type :=
  if ends_with "GROQ" model_name then GROQ
  else if ends_with "GGUF" model_name then GGUF
  else if ends_with "DSAPI" model_name then DSAPI
  else if String.eqb (family_of model_name) "CLAUDE"
          || String.eqb (family_of model_name) "GPT"
          || String.eqb (family_of model_name) "GEMINI" then Proprietary
  else Default.

(** Where [init_tokenizer] loads the tokenizer from; [None] when it loads
    none. *)
Inductive tokenizer_source :=
| CfgTokenizer
| RepoId.

Definition init_tokenizer (model_name : string) : option tokenizer_source :=
  match get_model_type model_name with
  | GROQ | GGUF | DSAPI => Some CfgTokenizer
  | Proprietary => None
  | Default => Some RepoId
  end.

(** [self.name_token_var], as [get_gen_params] sets it. *)
Definition name_token_var (model_name : string) : string :=
  if String.eqb (family_of model_name) "GEMINI" then "max_output_tokens"
  else match get_model_type model_name with
       | Proprietary | GGUF | DSAPI => "max_tokens"
       | GROQ | Default => "max_new_tokens"
       end.

(** [gen_params[new] = gen_params.pop(old)] on a dictionary that has [old]. *)
Definition rename_key {V} (old new : string) (gen_params : gmap string V) : gmap string V :=
  match gen_params !! old with
  | Some v => <[new := v]> (delete old gen_params)
  | None => gen_params
  end.

(** [key in gen_params] *)
Definition has_key {V} (key : string) (gen_params : gmap string V) : bool :=
  bool_decide (is_Some (gen_params !! key)).

(** [get_gen_params]; [limit_512] is the value 512 of the default. *)
Definition get_gen_params {V} (limit_512 : V) (model_name : string)
    (gen_params : option (gmap string V)) : gmap string V :=
  let name := name_token_var model_name in
  match gen_params with
  | None => {[ name := limit_512 ]}
  | Some gen_params =>
      if has_key "max_new_tokens" gen_params && negb (String.eqb name "max_new_tokens")
      then rename_key "max_new_tokens" name gen_params
      else if has_key "max_tokens" gen_params && negb (String.eqb name "max_tokens")
      then rename_key "max_tokens" name gen_params
      else if has_key "max_output_tokens" gen_params
              && negb (String.eqb name "max_output_tokens")
      then rename_key "max_output_tokens" name gen_params
      else gen_params
  end.

(** * models.py: generate *)

(** The calls [generate] makes to the model object, with their arguments:
    [chat.completions.create], [messages.create], [generate_content],
    [create_chat_completion] and the text-generation pipeline. *)
Record gemini_message := GeminiMessage { gemini_role : string; parts : list string }.

Inductive request (V : Type) :=
| ChatCompletionsCreate (model : string) (messages : list turn) (params : gmap string V)
| MessagesCreate (model : string) (messages : list turn) (system : option string)
    (params : gmap string V)
| GenerateContent (messages : list gemini_message) (generation_config : gmap string V)
| CreateChatCompletion (messages : list turn) (params : gmap string V)
| Pipeline (messages : list turn) (params : gmap string V).
Arguments ChatCompletionsCreate {V} model messages params.
Arguments MessagesCreate {V} model messages system params.
Arguments GenerateContent {V} messages generation_config.
Arguments CreateChatCompletion {V} messages params.
Arguments Pipeline {V} messages params.

(** What [generate] reads in a response: the generated text and, for a
    reasoning model, the reasoning steps. *)
Record response := Response { generated : string; reasoning_content : string }.

(** A call of [generate] returns the output, or stops on an exception: one
    of the service (any error of the call or of reading its response), or
    the [UnboundLocalError] of a local variable read before it is set. *)
Inductive failure := ServiceError | UnboundLocalError.

(** The messages of the GEMINI branch. *)
Definition gemini_messages (prompt : list turn) : list gemini_message :=
  map (fun turn =>
         GeminiMessage
           (if String.eqb (role turn) "user" || String.eqb (role turn) "system"
            then "user" else "model")
           [content turn])
      prompt.

(** The messages and the system prompt of the CLAUDE branch. *)
Definition claude_messages (prompt : list turn) : list turn * option string :=
  if (1 <? length prompt)%nat then
    match prompt with
    | first :: rest =>
        if String.eqb (role first) "system" then (rest, Some (content first))
        else (prompt, Some EmptyString)
    | [] => (prompt, Some EmptyString)
    end
  else (prompt, None).

(** The prompt of the last branch: MISTRAL and GEMMA get one user turn. *)
Definition merged_prompt (model_name : string) (prompt : list turn) : list turn :=
  if (String.eqb (family_of model_name) "MISTRAL"
      || String.eqb (family_of model_name) "GEMMA")
     && (1 <? length prompt)%nat
  then [Turn "user" (join_lines (map content prompt))]
  else prompt.

Definition thinking (reasoning_steps output : string) : string :=
  "**Thinking**..." +:+ nl +:+ nl +:+ nl +:+ reasoning_steps +:+ nl +:+ nl +:+ nl
  +:+ "**Finished thinking!**" +:+ nl +:+ nl +:+ nl +:+ output.

(** [generate]; [send] is the model object, [self_gen_params] is
    [self.gen_params] and [reason] is the truth of [self.cfg.get("reason")]. *)
Definition generate {V} (send : request V → failure + response) (limit_512 : V)
    (model_name repo_id : string) (reason : bool) (self_gen_params : gmap string V)
    (prompt : list turn) (gen_params : option (gmap string V)) : failure + string :=
  let gen_params :=
    match gen_params with
    | None => self_gen_params
    | Some g => if (size g =? 0)%nat then self_gen_params
                else get_gen_params limit_512 model_name (Some g)
    end in
  let model_type := get_model_type model_name in
  let family := family_of model_name in
  if match model_type with GROQ | DSAPI => true | _ => false end
     || String.eqb family "GPT" then
    match send (ChatCompletionsCreate repo_id prompt gen_params) with
    | inl e => inl e
    | inr r =>
        if match model_type with DSAPI => true | _ => false end && reason
        then inr (thinking (reasoning_content r) (generated r))
        else inr (generated r)
    end
  else if String.eqb family "CLAUDE" then
    let '(messages, system) := claude_messages prompt in
    match send (MessagesCreate repo_id messages system gen_params) with
    | inl e => inl e
    | inr r => inr (generated r)
    end
  else if String.eqb family "GEMINI" then
    match send (GenerateContent (gemini_messages prompt) gen_params) with
    | inl e => inl e
    | inr _ => inl UnboundLocalError
    end
  else
    let prompt := merged_prompt model_name prompt in
    match model_type with
    | GGUF =>
        match send (CreateChatCompletion prompt gen_params) with
        | inl e => inl e
        | inr r => inr (generated r)
        end
    | _ =>
        match send (Pipeline prompt gen_params) with
        | inl e => inl e
        | inr r => inr (generated r)
        end
    end.

(** * Properties of the token-budget manager *)

Section Budget.
Variable llm : LLM.

Lemma count_tokens_nonneg (p : prompt) : 0 ≤ count_tokens llm p.
Proof.
  unfold count_tokens.
  repeat match goal with |- context [if ?b then _ else _] => destruct b end; lia.
Qed.

Lemma query_tokens_nonneg (query : option string) : 0 ≤ query_tokens llm query.
Proof.
  destruct query as [q|]; simpl; [|lia].
  destruct (str_truthy q); [apply count_tokens_nonneg | lia].
Qed.

Lemma hist_tokens_nonneg (hist : list turn) : 0 ≤ hist_tokens llm hist.
Proof.
  induction hist as [|tm hist IH]; simpl; [lia|].
  pose proof (count_tokens_nonneg (PStr (content tm))). lia.
Qed.

(** When the fitting loop stops, what it returns fits. *)
Lemma fitting_loop_fits (fuel : nat) (avail_space : Z) (context : list string)
    (info : string) :
  fitting_loop llm fuel avail_space context = Some info →
  count_tokens llm (PStr info) ≤ avail_space.
Proof.
  revert context. induction fuel as [|fuel IH]; intros context; simpl; [discriminate|].
  destruct (avail_space <? _) eqn:E.
  - apply IH.
  - intros [= <-]. lia.
Qed.

(** What it returns is the join of the highest-ranked documents. *)
Lemma fitting_loop_keeps_rank (fuel : nat) (avail_space : Z) (context : list string)
    (info : string) :
  fitting_loop llm fuel avail_space context = Some info →
  ∃ n : nat, info = join_lines (take n context).
Proof.
  revert context. induction fuel as [|fuel IH]; intros context; simpl; [discriminate|].
  destruct (avail_space <? _) eqn:E.
  - intros H. destruct (IH _ H) as [n ->].
    exists (Nat.min n (length context - 1)).
    rewrite removelast_firstn_len, take_take.
    do 2 f_equal. lia.
  - intros [= <-]. exists (length context). by rewrite firstn_all.
Qed.

(** Once the document list is empty the loop sees the same text forever. *)
Lemma fitting_loop_empty_stuck (fuel : nat) (avail_space : Z) :
  avail_space < count_tokens llm (PStr EmptyString) →
  fitting_loop llm fuel avail_space [] = None.
Proof.
  intros H. induction fuel as [|fuel IH]; simpl; [done|].
  change (join_lines []) with EmptyString.
  destruct (Z.ltb_spec avail_space (count_tokens llm (PStr EmptyString))); [done | lia].
Qed.

(** With less space than any text takes, the loop never stops. *)
Lemma fitting_loop_negative (fuel : nat) (avail_space : Z) (context : list string) :
  avail_space < 0 →
  fitting_loop llm fuel avail_space context = None.
Proof.
  intros H. revert context. induction fuel as [|fuel IH]; intros context; simpl; [done|].
  pose proof (count_tokens_nonneg (PStr (join_lines context))).
  destruct (Z.ltb_spec avail_space (count_tokens llm (PStr (join_lines context))));
    [apply IH | lia].
Qed.

(** With room for the empty text, one pass per document and one more
    are enough. *)
Lemma fitting_loop_terminates (fuel : nat) (avail_space : Z) (context : list string) :
  count_tokens llm (PStr EmptyString) ≤ avail_space →
  (length context < fuel)%nat →
  ∃ info, fitting_loop llm fuel avail_space context = Some info.
Proof.
  intros Hfit. revert context.
  induction fuel as [|fuel IH]; intros context Hlen; [lia|]. simpl.
  destruct (avail_space <? _) eqn:E; [|eauto].
  destruct context as [|d context].
  - change (join_lines []) with EmptyString in E. apply Z.ltb_lt in E. lia.
  - apply IH.
    assert (length (removelast (d :: context)) = length context) as ->; [|simpl in Hlen; lia].
    rewrite removelast_firstn_len, length_take. simpl. lia.
Qed.

Lemma hist_budget_quot : hist_budget llm = (context_length llm * 2) ÷ 10.
Proof. reflexivity. Qed.

Lemma hist_budget_nonneg : 0 ≤ context_length llm → 0 ≤ hist_budget llm.
Proof. intros H. rewrite hist_budget_quot. apply Z.quot_pos; lia. Qed.

(** The budget is the floor of a fifth of the context length, hence at
    most its ceiling. *)
Lemma hist_budget_floor :
  0 ≤ context_length llm →
  hist_budget llm * 5 ≤ context_length llm < (hist_budget llm + 1) * 5.
Proof.
  intros H. rewrite hist_budget_quot, Z.quot_div_nonneg by lia.
  pose proof (Z.div_mod (context_length llm * 2) 10 ltac:(lia)).
  pose proof (Z.mod_pos_bound (context_length llm * 2) 10 ltac:(lia)).
  lia.
Qed.

(** The loop pops the oldest turns of the list at [r], as few as bring the
    total down to the budget, and leaves every other list alone. *)
Lemma trunc_loop_spec (r : loc) (budget : Z) (hist : list turn) (h : heap) :
  0 ≤ budget →
  ∃ n : nat,
    trunc_loop llm r budget (hist_tokens llm hist) hist h
      = Ok tt (match n with O => h | S _ => <[r := drop n hist]> h end) ∧
    hist_tokens llm (drop n hist) ≤ budget ∧
    ∀ m : nat, (m < n)%nat → budget < hist_tokens llm (drop m hist).
Proof.
  intros Hb. revert h. induction hist as [|tm rest IH]; intros h.
  - exists O. simpl. destruct (Z.ltb_spec budget 0); [lia|].
    repeat split; [lia | intros; lia].
  - cbn [trunc_loop]. destruct (Z.ltb_spec budget (hist_tokens llm (tm :: rest))) as [Hlt|Hge].
    + unfold bind at 1.
      replace (hist_tokens llm (tm :: rest) - count_tokens llm (PStr (content tm)))
        with (hist_tokens llm rest) by (simpl; lia).
      destruct (IH (<[r := rest]> h)) as (n & Hrun & Hfit & Hmin).
      exists (S n). rewrite Hrun. repeat split.
      * f_equal. destruct n as [|n]; [done|]. by rewrite insert_insert_eq.
      * done.
      * intros [|m] Hm; [done|]. apply Hmin. lia.
    + exists O. repeat split; [done | intros; lia].
Qed.

Lemma trunc_chat_history_spec (share : Q) (r : loc) (h : heap) :
  0 ≤ context_length llm →
  ∃ (n : nat) (h' : heap),
    trunc_chat_history llm r share h = Ok r h' ∧
    h' !!! r = drop n (h !!! r) ∧
    (∀ r' : loc, r' ≠ r → h' !! r' = h !! r') ∧
    hist_tokens llm (h' !!! r) ≤ hist_budget llm ∧
    ∀ m : nat, (m < n)%nat → hist_budget llm < hist_tokens llm (drop m (h !!! r)).
Proof.
  intros Hc.
  destruct (trunc_loop_spec r (hist_budget llm) (h !!! r) h (hist_budget_nonneg Hc))
    as (n & Hrun & Hfit & Hmin).
  exists n, (match n with O => h | S _ => <[r := drop n (h !!! r)]> h end).
  unfold trunc_chat_history, bind, get_state. fold (hist_budget llm). rewrite Hrun.
  split; [done|].
  assert ((match n with O => h | S _ => <[r := drop n (h !!! r)]> h end) !!! r
          = drop n (h !!! r)) as Hr.
  { destruct n; [done|]. by rewrite lookup_total_insert_eq. }
  rewrite Hr. repeat split; [|done..].
  intros r' Hne. destruct n; [done|]. by rewrite lookup_insert_ne.
Qed.

(** The share passed by the caller plays no part. *)
Lemma trunc_chat_history_any_share (share1 share2 : Q) (r : loc) :
  trunc_chat_history llm r share1 = trunc_chat_history llm r share2.
Proof. reflexivity. Qed.

(** With the default share every call returns, and what is left of the
    history is within the budget. *)
Lemma trunc_chat_history_default_bound (r : loc) (h : heap) :
  0 ≤ context_length llm →
  ∃ h' : heap,
    trunc_chat_history llm r (2 # 10) h = Ok r h' ∧
    hist_tokens llm (h' !!! r) * 5 ≤ context_length llm.
Proof.
  intros Hc.
  destruct (trunc_chat_history_spec (2 # 10) r h Hc) as (n & h' & Hrun & _ & _ & Hfit & _).
  exists h'. split; [done|]. pose proof (hist_budget_floor Hc). lia.
Qed.
End Budget.

(** ** prepare_context *)

(** C1. Whenever [prepare_context] returns assembled context (and not the
    sentinel), the token count of the returned text is at most
    [context_length - max_gen_tokens]. *)
Theorem prepare_context_within_budget (llm : LLM) (fuel : nat) (p : prompt)
    (context : list string) (query : option string) (chat_history : loc)
    (h h' : heap) (info : string) :
  prepare_context llm fuel p context query chat_history h = Ok (Info info) h' →
  count_tokens llm (PStr info) ≤ context_length llm - max_gen_tokens llm.
Proof.
  unfold prepare_context, bind, get_state.
  match goal with
  | |- context [match ?m h with Ok _ _ => _ | Raise _ _ => _ | OutOfFuel => _ end] =>
      destruct (m h) as [r h1|e h1|]; [|discriminate..]
  end.
  unfold get_avail_space.
  set (used := count_tokens llm (PTurns _)).
  destruct (Z.leb_spec (context_length llm - max_gen_tokens llm - used) 0); [discriminate|].
  destruct (_ =? 0); [discriminate|].
  destruct (fitting_loop llm fuel _ context) as [s|] eqn:Hloop; [|discriminate].
  intros [= -> _]. apply fitting_loop_fits in Hloop.
  assert (0 ≤ used) by apply count_tokens_nonneg.
  pose proof (query_tokens_nonneg llm query). lia.
Qed.

Lemma prepare_context_within_budget_witness :
  count_tokens (char_llm 10 2) (PStr "ab")
  ≤ context_length (char_llm 10 2) - max_gen_tokens (char_llm 10 2).
Proof.
  apply (prepare_context_within_budget (char_llm 10 2) 5 (PStr "hello")
           ["ab"; "cd"] None 0%nat ∅ ∅ "ab").
  reflexivity.
Defined.

(** The outcomes of [prepare_context] on an empty history, by the sign of
    the space left. *)
Section PrepareCases.
Variables (llm : LLM) (fuel : nat) (p : prompt) (context : list string).
Variables (query : option string) (r : loc) (h : heap).
Hypothesis no_history : h !!! r = [].

Lemma prepare_context_no_space :
  get_avail_space llm (PTurns (as_turns p)) = None →
  prepare_context llm fuel p context query r h = Raise TypeError h.
Proof.
  intros E. unfold prepare_context, bind, get_state.
  rewrite no_history. simpl. by rewrite no_history, app_nil_r, E.
Qed.

Lemma prepare_context_zero_space (space : Z) :
  get_avail_space llm (PTurns (as_turns p)) = Some space →
  space - query_tokens llm query = 0 →
  prepare_context llm fuel p context query r h = Ok Sentinel h.
Proof.
  intros E Hz. unfold prepare_context, bind, get_state.
  rewrite no_history. simpl. by rewrite no_history, app_nil_r, E, Hz.
Qed.

Lemma prepare_context_negative_space (space : Z) :
  get_avail_space llm (PTurns (as_turns p)) = Some space →
  space - query_tokens llm query < 0 →
  prepare_context llm fuel p context query r h = OutOfFuel.
Proof.
  intros E Hneg. unfold prepare_context, bind, get_state.
  rewrite no_history. simpl. rewrite no_history, app_nil_r, E.
  destruct (Z.eqb_spec (space - query_tokens llm query) 0); [lia|].
  by rewrite fitting_loop_negative.
Qed.

Lemma prepare_context_positive_space (space : Z) :
  get_avail_space llm (PTurns (as_turns p)) = Some space →
  0 < space - query_tokens llm query →
  count_tokens llm (PStr EmptyString) ≤ space - query_tokens llm query →
  (length context < fuel)%nat →
  ∃ info, prepare_context llm fuel p context query r h = Ok (Info info) h.
Proof.
  intros E Hpos Hfit Hfuel. unfold prepare_context, bind, get_state.
  rewrite no_history. simpl. rewrite no_history, app_nil_r, E.
  destruct (Z.eqb_spec (space - query_tokens llm query) 0); [lia|].
  destruct (fitting_loop_terminates llm fuel _ context Hfit Hfuel) as [info ->]. eauto.
Qed.
End PrepareCases.

(** C2. A prompt that leaves no space: [get_avail_space] answers [None], and
    the subtraction of the query length from it raises [TypeError]; the
    sentinel is not returned. *)
Theorem prepare_context_exhausted_prompt (fuel : nat) :
  get_avail_space (char_llm 10 2) (PTurns [Turn "user" "hello678"]) = None ∧
  prepare_context (char_llm 10 2) fuel (PStr "hello678") ["ab"; "cd"] None 0%nat ∅
    = Raise TypeError ∅.
Proof. split; [reflexivity|]. by apply prepare_context_no_space. Qed.

(** C3. A query longer than the space the prompt leaves: the available space
    is negative, the loop is entered, and it is still running after any
    number of passes. *)
Theorem prepare_context_negative_space_loops (fuel : nat) :
  get_avail_space (char_llm 10 2) (PTurns [Turn "user" "hello"]) = Some 3 ∧
  count_tokens (char_llm 10 2) (PStr "query") = 5 ∧
  prepare_context (char_llm 10 2) fuel (PStr "hello") ["ab"; "cd"] (Some "query") 0%nat ∅
    = OutOfFuel.
Proof.
  split; [reflexivity|]. split; [reflexivity|].
  apply (prepare_context_negative_space (char_llm 10 2) fuel (PStr "hello")
           ["ab"; "cd"] (Some "query") 0%nat ∅) with (space := 3); [done..|].
  vm_compute. reflexivity.
Qed.

(** ** trunc_chat_history *)

(** C4. A history of three tokens under a share of one half of a context
    length of ten: the total does not exceed the share (5), and the turn is
    removed all the same, because the body compares with a fifth (2). *)
Theorem trunc_chat_history_ignores_share :
  let llm := char_llm 10 2 in
  let h : heap := {[ 0%nat := [Turn "user" "abc"] ]} in
  hist_tokens llm (h !!! 0%nat) = 3 ∧
  int_of_Q (inject_Z (context_length llm) * (1 # 2)) = 5 ∧
  trunc_chat_history llm 0%nat (1 # 2) h = Ok 0%nat (<[0%nat := []]> h).
Proof. repeat split. Qed.

(** C10. [trunc_chat_history] works on the caller's list object: it returns
    the location it was given, the list there has lost its [n] oldest turns
    (at least one when the total exceeded the budget), no other list has
    changed, and the heap in which [prepare_context] stops is that same heap:
    the caller's history is truncated by the call. *)
Theorem trunc_chat_history_in_place (llm : LLM) (share : Q) (r : loc) (h : heap) :
  0 ≤ context_length llm →
  ∃ (n : nat) (h' : heap),
    trunc_chat_history llm r share h = Ok r h' ∧
    h' !!! r = drop n (h !!! r) ∧
    (∀ r' : loc, r' ≠ r → h' !! r' = h !! r') ∧
    (hist_budget llm < hist_tokens llm (h !!! r) → (0 < n)%nat) ∧
    ∀ (fuel : nat) (p : prompt) (context : list string) (query : option string),
      prepare_context llm fuel p context query r h = OutOfFuel ∨
      final_state (prepare_context llm fuel p context query r h) = Some h'.
Proof.
  intros Hc.
  destruct (trunc_chat_history_spec llm share r h Hc) as (n & h' & Hrun & Hr & Hother & Hfit & Hmin).
  exists n, h'. repeat split; try done.
  - intros Hover. destruct n; [|lia]. rewrite Hr, drop_0 in Hfit. lia.
  - intros fuel p context query.
    assert ((match h !!! r with
             | [] => ret r
             | _ :: _ => trunc_chat_history llm r (2 # 10)
             end) h = Ok r h') as Htrunc.
    { destruct (h !!! r) eqn:E; [|exact Hrun].
      revert Hrun. unfold trunc_chat_history, bind, get_state. rewrite E. simpl.
      pose proof (hist_budget_nonneg llm Hc) as Hb. unfold hist_budget in Hb.
      destruct (Z.ltb_spec (int_of_Q (inject_Z (context_length llm) * (2 # 10))) 0); [lia|].
      by intros [= <-]. }
    unfold prepare_context, bind, get_state. rewrite !Htrunc.
    destruct (get_avail_space _ _); [|by right].
    destruct (_ =? 0); [by right|].
    destruct (fitting_loop _ _ _ _); [by right | by left].
Qed.

Lemma trunc_chat_history_in_place_witness :
  ∃ (n : nat) (h' : heap),
    trunc_chat_history (char_llm 10 2) 0%nat (2 # 10)
      {[ 0%nat := [Turn "user" "abc"; Turn "assistant" "d"] ]} = Ok 0%nat h' ∧
    h' !!! 0%nat = drop n [Turn "user" "abc"; Turn "assistant" "d"] ∧
    (0 < n)%nat.
Proof.
  destruct (trunc_chat_history_in_place (char_llm 10 2) (2 # 10) 0%nat
              {[ 0%nat := [Turn "user" "abc"; Turn "assistant" "d"] ]})
    as (n & h' & Hrun & Hr & _ & Hn & _); [simpl; lia|].
  exists n, h'. repeat split; [exact Hrun | exact Hr |].
  apply Hn. vm_compute. reflexivity.
Defined.

(** * Properties of the retriever *)

(** ** Ranking *)

(** What [_encode] makes of a list of texts that is not empty. *)
Lemma _encode_list (be : Backend) (l : list string) :
  l ≠ [] → _encode be (DList l) = Arr2 (map (embed be) l).
Proof. by destruct l. Qed.

(** On arrays other than the array of shape [(0,)] the similarity is the
    matrix of the pairwise similarities, unless the call raises. *)
Lemma similarity_batches (be : Backend) (a b : ndarray (vec be)) :
  a ≠ Arr0 → b ≠ Arr0 →
  similarity be a b
  = if similarity_raises be (batch a) (batch b) then inl ProviderError
    else inr (map (fun q => map (sim be q) (batch b)) (batch a)).
Proof. by destruct a, b. Qed.

(** The similarity call returns for a query and a pool given as a list of
    texts exactly when the pool is not empty and the call of the model on
    their embeddings does not raise. *)
Lemma similarity_returns (be : Backend) (query : string) (texts : list string) :
  (∃ m : list (list Q),
     similarity be (_encode be (DStr query)) (_encode be (DList texts)) = inr m)
  ↔ texts ≠ [] ∧ similarity_raises be [embed be query] (map (embed be) texts) = false.
Proof.
  destruct texts as [|t texts]; simpl.
  - split; [by intros [m Hm] | by intros [Hne _]].
  - destruct (similarity_raises be _ _); split;
      [by intros [m Hm] | by intros [_ Hf] | done | by eexists].
Qed.

Lemma argsort_nil (be : Backend) : argsort_permutes be → argsort be [] = [].
Proof. intros Hperm. apply Permutation_nil. symmetry. apply (Hperm []). Qed.

(** C5 (amended). The ranking makes no check of its own for an empty
    candidate pool. Given as an empty list of texts, the pool is encoded to
    the array of shape [(0,)]: the similarity call of the library raises on
    it for every query that has an embedding, and for an equally empty list
    of queries the ranking returns one score and the index 0 of a document
    that does not exist. Given as an encoded array without rows, the pool
    makes the ranking return, whenever the similarity call does, a result
    that holds no score and no index, without any error. *)
Theorem ranking_empty_pool (be : Backend) (queries : docs (vec be)) :
  argsort_permutes be →
  (_encode be queries ≠ Arr0 →
   get_retrieval_results be queries (DList []) = inl ProviderError ∧
   (similarity_raises be (batch (_encode be queries)) [] = false →
    ∃ (s : scores) (i : indices),
      get_retrieval_results be queries (DArr (Arr2 [])) = inr (s, i) ∧
      no_score s ∧ no_index i)) ∧
  (_encode be queries = Arr0 →
   get_retrieval_results be queries (DList [])
   = inr (SList [0%Q], IList [0%nat])).
Proof.
  intros Hperm. pose proof (argsort_nil be Hperm) as Hnil.
  unfold get_retrieval_results, _neural_retrieval.
  cbn [_encode]. destruct (_encode be queries) as [v|rows|]; (split; [intros Hne|intros Hq]);
    try done.
  - split; [done|]. cbn. intros ->. cbn. rewrite Hnil. by eexists _, _.
  - split; [done|]. cbn. intros ->. cbn.
    destruct rows as [|r [|r' rows]].
    + eexists _, _. split; [reflexivity|]. by split; constructor.
    + cbn. rewrite Hnil. by eexists _, _.
    + cbn [length squeeze_tolist]. eexists _, _. split; [reflexivity|].
      split; apply Forall_forall; intros row Hrow.
      * by apply list_elem_of_fmap in Hrow as [q [-> _]].
      * apply elem_of_reverse, list_elem_of_fmap in Hrow as [l [-> Hl]].
        by apply list_elem_of_fmap in Hl as [q [-> _]].
Qed.

(** A ranking of an encoded pool without rows: the result is empty and no
    error is raised. *)
Lemma ranking_empty_pool_silent :
  get_retrieval_results exact_match (DStr "q") (DArr (Arr2 []))
  = inr (SList [], IList []).
Proof. reflexivity. Qed.

(** ** Consensus reranking *)

Section Argmax.
Local Open Scope Q_scope.

(** [argmax_from] run on the rest [l] of a list, from the best index of the
    part [pre] already seen: the index returned holds a largest value, and
    every value before it is strictly smaller. *)
Lemma argmax_from_spec (l pre : list Q) (best : nat) (best_val : Q) :
  pre !! best = Some best_val →
  (∀ (j : nat) (v : Q), pre !! j = Some v → v <= best_val ∧ ((j < best)%nat → v < best_val)) →
  ∃ vb : Q,
    (pre ++ l)%list !! argmax_from best best_val (length pre) l = Some vb ∧
    ∀ (j : nat) (v : Q), (pre ++ l)%list !! j = Some v →
      v <= vb ∧ ((j < argmax_from best best_val (length pre) l)%nat → v < vb).
Proof.
  revert pre best best_val.
  induction l as [|x l IH]; intros pre best best_val Hbest Hseen; simpl.
  - exists best_val. rewrite app_nil_r. auto.
  - pose proof (lookup_lt_Some _ _ _ Hbest) as Hlt.
    replace (pre ++ x :: l)%list with ((pre ++ [x]) ++ l)%list by (by rewrite <- app_assoc).
    replace (S (length pre)) with (length (pre ++ [x])%list)
      by (rewrite length_app; simpl; lia).
    destruct (Qle_bool x best_val) eqn:E.
    + apply Qle_bool_iff in E. apply IH.
      * by rewrite lookup_app_l.
      * intros j v Hj. apply lookup_app_Some in Hj as [Hj|[Hge Hj]]; [by apply Hseen|].
        apply list_lookup_singleton_Some in Hj as [Hj0 <-].
        split; [done|]. intros. lia.
    + assert (best_val < x) as Hnew.
      { apply Qnot_le_lt. intros Hle. apply Qle_bool_iff in Hle. congruence. }
      apply IH.
      * rewrite lookup_app_r by lia. by rewrite Nat.sub_diag.
      * intros j v Hj. apply lookup_app_Some in Hj as [Hj|[Hge Hj]].
        -- destruct (Hseen j v Hj) as [Hle _].
           split; [|intros _]; [apply Qlt_le_weak|]; by apply Qle_lt_trans with best_val.
        -- apply list_lookup_singleton_Some in Hj as [Hj0 <-].
           split; [apply Qle_refl|]. intros. lia.
Qed.

Lemma argmax_spec (x : Q) (l : list Q) :
  ∃ (b : nat) (vb : Q),
    argmax (x :: l) = inr b ∧ (x :: l) !! b = Some vb ∧
    ∀ (j : nat) (v : Q), (x :: l) !! j = Some v → v <= vb ∧ ((j < b)%nat → v < vb).
Proof.
  destruct (argmax_from_spec l [x] 0 x) as (vb & Hb & Hmax); [done| |].
  - intros j v Hj. apply list_lookup_singleton_Some in Hj as [-> <-].
    split; [apply Qle_refl|]. intros. lia.
  - exists (argmax_from 0 x 1 l), vb. auto.
Qed.
End Argmax.

(** C8. For a non-empty list of outputs (and a similarity call that
    returns), [semantic_consensus_weighting] returns the output at the index
    [b] whose row sum of pairwise similarity is largest; every row sum
    before [b] is strictly smaller, so among tied candidates the first is
    returned. *)
Theorem semantic_consensus_weighting_first_max (be : Backend) (outputs : list string) :
  outputs ≠ [] →
  similarity_raises be (map (embed be) outputs) (map (embed be) outputs) = false →
  let embeds := map (embed be) outputs in
  let aggregated_scores := row_sums (map (fun q => map (sim be q) embeds) embeds) in
  ∃ (b : nat) (out : string) (vb : Q),
    semantic_consensus_weighting be outputs = inr out ∧
    outputs !! b = Some out ∧
    aggregated_scores !! b = Some vb ∧
    ∀ (j : nat) (v : Q), aggregated_scores !! j = Some v →
      (v <= vb)%Q ∧ ((j < b)%nat → (v < vb)%Q).
Proof.
  intros Hne Hsim. cbv zeta.
  unfold semantic_consensus_weighting. rewrite (_encode_list be outputs Hne).
  rewrite similarity_batches by done. cbn [batch]. rewrite Hsim. simpl.
  set (aggregated_scores := row_sums _).
  assert (length aggregated_scores = length outputs) as Hlen.
  { unfold aggregated_scores, row_sums. by rewrite !length_map. }
  destruct aggregated_scores as [|x l] eqn:Eagg.
  { destruct outputs; [done | discriminate]. }
  destruct (argmax_spec x l) as (b & vb & -> & Hb & Hmax). simpl.
  pose proof (lookup_lt_Some _ _ _ Hb) as Hlt. rewrite Hlen in Hlt.
  destruct (lookup_lt_is_Some_2 outputs b Hlt) as [out Hout].
  exists b, out, vb. unfold index. rewrite Hout. auto.
Qed.

Lemma semantic_consensus_weighting_first_max_witness :
  ∃ (b : nat) (out : string),
    semantic_consensus_weighting exact_match ["b"; "a"; "a"; "b"] = inr out ∧
    ["b"; "a"; "a"; "b"] !! b = Some out.
Proof.
  destruct (semantic_consensus_weighting_first_max exact_match ["b"; "a"; "a"; "b"])
    as (b & out & vb & Hrun & Hout & _); [done | reflexivity |].
  exists b, out. split; assumption.
Defined.

(** ** Contrastive retrieval *)

Lemma mapM_Forall2 {A B} (f : A → result B) (P : A → B → Prop) (l : list A) :
  (∀ x : A, x ∈ l → ∃ y : B, f x = inr y ∧ P x y) →
  ∃ ys : list B, mapM f l = inr ys ∧ Forall2 P l ys.
Proof.
  induction l as [|x l IH]; intros Hf; simpl.
  - exists []. split; [done | constructor].
  - destruct (Hf x) as (y & -> & Hy); [left|].
    destruct IH as (ys & -> & Hys); [intros; apply Hf; by right|].
    exists (y :: ys). split; [done | by constructor].
Qed.

Lemma index_Some {A} (l : list A) (i : nat) (x : A) :
  l !! i = Some x → index l i = inr x.
Proof. unfold index. by intros ->. Qed.

Lemma index_lt {A} (l : list A) (i : nat) :
  (i < length l)%nat → ∃ x : A, index l i = inr x.
Proof.
  intros [x Hx]%lookup_lt_is_Some_2. exists x. by apply index_Some.
Qed.

(** The last [num] elements, for a positive [num]. *)
Lemma slice_from_last {A} (num : Z) (l : list A) :
  1 ≤ num →
  slice_from (- num) l = drop (length l - Z.to_nat num) l.
Proof.
  intros H. unfold slice_from.
  destruct (Z.leb_spec 0 (- num)); [lia|]. by rewrite Z.opp_involutive.
Qed.

Lemma slice_from_last_length {A} (num : Z) (l : list A) :
  1 ≤ num →
  length (slice_from (- num) l) = Z.to_nat (Z.min num (Z.of_nat (length l))).
Proof. intros H. rewrite slice_from_last, length_drop by done. lia. Qed.

Lemma slice_from_elem_of {A} (start : Z) (l : list A) (x : A) :
  x ∈ slice_from start l → x ∈ l.
Proof.
  unfold slice_from. destruct (0 <=? start);
    intros [i Hi]%list_elem_of_lookup; rewrite lookup_drop in Hi;
    by eapply list_elem_of_lookup_2.
Qed.

Lemma argsort_elem_lt (be : Backend) (l : list Q) (i : nat) :
  argsort_permutes be → i ∈ argsort be l → (i < length l)%nat.
Proof.
  intros Hperm Hi. rewrite (Hperm l) in Hi. apply elem_of_seq in Hi. lia.
Qed.

Section Contrastive.
Variables (be : Backend) (ds : Dataset).
Variables (retr_texts retr_gts : list (list string)).

(** On aligned data the exemplar strings of a subject are built without an
    error, [min(ce_k, len(retr_texts[ce]))] of them. *)
Lemma ce_example_clamped (n : nat) (ce_k : Z) (ce : nat) :
  aligned ds n retr_texts retr_gts → (ce < n)%nat → 0 ≤ ce_k →
  ∃ (texts strs : list string),
    retr_texts !! ce = Some texts ∧
    ce_example ds retr_texts retr_gts ce_k ce = inr strs ∧
    Z.of_nat (length strs) = Z.min ce_k (Z.of_nat (length texts)).
Proof.
  intros Hal Hce Hk.
  destruct (Hal ce Hce) as (texts & gts & Htexts & Hgts & Hlen & Hrat).
  unfold ce_example. rewrite (index_Some _ _ _ Htexts). simpl.
  set (max_range := if Z.of_nat (length texts) <? ce_k then _ else _).
  assert (max_range = Z.min ce_k (Z.of_nat (length texts))) as Hmax.
  { subst max_range. destruct (Z.ltb_spec (Z.of_nat (length texts)) ce_k); lia. }
  set (doc_ratings := match retr_gt_name ds with GtPair _ _ => _ | _ => _ end).
  destruct (mapM_Forall2 (ce_string ds retr_texts retr_gts doc_ratings ce)
              (fun _ _ => True) (seq 0 (Z.to_nat max_range))) as (strs & Hrun & Hall).
  - intros j Hj%elem_of_seq.
    assert (j < length texts)%nat as Hjt by lia.
    destruct (index_lt texts j Hjt) as [text Htext].
    destruct (index_lt gts j ltac:(lia)) as [g Hg].
    unfold ce_string.
    rewrite (index_Some _ _ _ Htexts). simpl. rewrite Htext. simpl.
    subst doc_ratings. destruct (retr_gt_name ds) as [|name|gt rating].
    + eauto.
    + destruct (str_truthy name); [|eauto].
      rewrite (index_Some _ _ _ Hgts). simpl. rewrite Hg. simpl. eauto.
    + rewrite (index_Some _ _ _ Hgts). simpl. rewrite Hg. simpl.
      destruct (index_lt (get_ratings ds ce) j ltac:(lia)) as [r ->]. simpl. eauto.
  - exists texts, strs. repeat split; [done..|].
    apply Forall2_length in Hall. rewrite length_seq in Hall. lia.
Qed.

(** With two queries or more the ranking of the queries against themselves
    is a matrix: one argsort per query, in reversed query order. *)
Lemma ranking_of_queries (queries : list string) :
  (2 ≤ length queries)%nat →
  similarity_raises be (map (embed be) queries) (map (embed be) queries) = false →
  ∃ sc : scores,
    get_retrieval_results be (DList queries) (DList queries)
    = inr (sc, IMatrix (map (fun q => argsort be (map (sim be (embed be q))
                                                      (map (embed be) queries)))
                            (reverse queries))).
Proof.
  intros Hn Hsim. unfold get_retrieval_results, _neural_retrieval.
  assert (queries ≠ []) as Hne by (intros ->; simpl in Hn; lia).
  rewrite (_encode_list be queries Hne), similarity_batches by done.
  cbn [batch n_vectors]. rewrite Hsim. simpl. rewrite length_map.
  destruct (length queries) as [|[|n]] eqn:E; [lia..|].
  simpl. eexists. do 3 f_equal.
  by rewrite fmap_reverse, !map_map.
Qed.
End Contrastive.

(** X19. With at least two queries and [num_ce ≥ 1], on aligned data,
    [contrastive_retrieval] returns. The queries are ranked against the
    queries; the result has one entry per query, in reversed query order (the
    [[::-1]] on the two-dimensional argsort reverses the rows); the exemplar
    subjects of an entry are the last [num_ce] indices of the ascending
    argsort of that query, [min(num_ce, number of queries)] of them; and
    each subject contributes exactly [min(ce_k, number of its documents)]
    exemplar strings. *)
Theorem contrastive_retrieval_clamps (be : Backend) (ds : Dataset) (queries : list string)
    (retr_texts retr_gts : list (list string)) (num_ce ce_k : Z) :
  argsort_permutes be →
  similarity_raises be (map (embed be) queries) (map (embed be) queries) = false →
  aligned ds (length queries) retr_texts retr_gts →
  (2 ≤ length queries)%nat → 1 ≤ num_ce → 0 ≤ ce_k →
  ∃ out : list (list (list string)),
    contrastive_retrieval be ds queries retr_texts retr_gts num_ce ce_k = inr out ∧
    Forall2
      (fun (query : string) (subjects : list (list string)) =>
         let ranked :=
           argsort be (map (sim be (embed be query)) (map (embed be) queries)) in
         let ce_idxs := slice_from (- num_ce) ranked in
         length ce_idxs = Z.to_nat (Z.min num_ce (Z.of_nat (length queries))) ∧
         Forall2
           (fun (ce : nat) (strs : list string) =>
              ∃ texts : list string,
                retr_texts !! ce = Some texts ∧
                Z.of_nat (length strs) = Z.min ce_k (Z.of_nat (length texts)))
           ce_idxs subjects)
      (reverse queries) out.
Proof.
  intros Hperm Hsim Hal Hn Hnum Hk.
  destruct (ranking_of_queries be queries Hn Hsim) as [sc Hrank].
  unfold contrastive_retrieval. rewrite Hrank. simpl.
  set (rank := fun q => argsort be (map (sim be (embed be q)) (map (embed be) queries))).
  edestruct (mapM_Forall2
               (fun ce_retr => mapM (ce_example ds retr_texts retr_gts ce_k)
                                 (slice_from (- num_ce) ce_retr))
               (fun ce_retr subjects =>
                  length (slice_from (- num_ce) ce_retr)
                  = Z.to_nat (Z.min num_ce (Z.of_nat (length queries))) ∧
                  Forall2 (fun ce strs =>
                             ∃ texts, retr_texts !! ce = Some texts ∧
                               Z.of_nat (length strs) = Z.min ce_k (Z.of_nat (length texts)))
                          (slice_from (- num_ce) ce_retr) subjects)
               (map rank (reverse queries))) as (out & Hrun & Hall).
  - intros ce_retr [q [-> Hq]]%list_elem_of_fmap.
    assert (length (rank q) = length queries) as Hlen.
    { unfold rank. rewrite (Permutation_length (Hperm _)), length_seq.
      by rewrite !length_map. }
    edestruct (mapM_Forall2 (ce_example ds retr_texts retr_gts ce_k)
                 (fun ce strs =>
                    ∃ texts, retr_texts !! ce = Some texts ∧
                      Z.of_nat (length strs) = Z.min ce_k (Z.of_nat (length texts)))
                 (slice_from (- num_ce) (rank q))) as (subjects & Hsub & Hforall).
    + intros ce Hce%slice_from_elem_of.
      apply (argsort_elem_lt be _ _ Hperm) in Hce. rewrite !length_map in Hce.
      destruct (ce_example_clamped ds retr_texts retr_gts _ ce_k ce Hal Hce Hk)
        as (texts & strs & Htexts & Hex & Hcount).
      eauto.
    + exists subjects. split; [done|]. split; [|done].
      by rewrite slice_from_last_length, Hlen.
  - exists out. split; [done|]. by apply Forall2_fmap_l in Hall.
Qed.

(** The sample argsort is one. *)
Lemma insert_scored_perm (x : Q * nat) (l : list (Q * nat)) :
  insert_scored x l ≡ₚ x :: l.
Proof.
  induction l as [|y l IH]; simpl; [done|].
  destruct (Qle_bool (fst x) (fst y)); [done|].
  rewrite IH. apply Permutation_swap.
Qed.

Lemma stable_argsort_permutes : argsort_permutes exact_match.
Proof.
  intros l. simpl. unfold stable_argsort.
  assert (∀ l' : list (Q * nat), foldr insert_scored [] l' ≡ₚ l') as Hsort.
  { induction l' as [|x l' IH]; simpl; [done|]. by rewrite insert_scored_perm, IH. }
  rewrite Hsort. change (map snd ?l) with (l.*2). rewrite snd_zip; [done|].
  by rewrite length_seq.
Qed.

Lemma ranking_empty_pool_witness :
  get_retrieval_results exact_match (DStr "q") (DList []) = inl ProviderError ∧
  ∃ (s : scores) (i : indices),
    get_retrieval_results exact_match (DStr "q") (DArr (Arr2 [])) = inr (s, i) ∧
    no_score s ∧ no_index i.
Proof.
  destruct (ranking_empty_pool exact_match (DStr "q") stable_argsort_permutes)
    as [Hlist _].
  destruct Hlist as [Hraises Hsilent]; [done|].
  split; [exact Hraises | apply Hsilent; reflexivity].
Defined.

Lemma plain_dataset_aligned :
  aligned plain_dataset 2 [["x1"; "x2"; "x3"]; ["y1"]] [["g1"; "g2"; "g3"]; ["h1"]].
Proof.
  intros [|[|ce]] Hce; [| |lia]; simpl; eexists _, _; repeat split; simpl; lia.
Qed.

Lemma contrastive_retrieval_clamps_witness :
  ∃ out : list (list (list string)),
    contrastive_retrieval exact_match plain_dataset ["a"; "b"]
      [["x1"; "x2"; "x3"]; ["y1"]] [["g1"; "g2"; "g3"]; ["h1"]] 1 2 = inr out ∧
    length out = 2%nat.
Proof.
  destruct (contrastive_retrieval_clamps exact_match plain_dataset ["a"; "b"]
              [["x1"; "x2"; "x3"]; ["y1"]] [["g1"; "g2"; "g3"]; ["h1"]] 1 2)
    as (out & Hrun & Hall).
  - exact stable_argsort_permutes.
  - reflexivity.
  - exact plain_dataset_aligned.
  - simpl. lia.
  - lia.
  - lia.
  - exists out. split; [exact Hrun|].
    apply Forall2_length in Hall. rewrite <- Hall. reflexivity.
Defined.

(** Asked for three exemplar subjects where there are two queries, the
    retrieval selects two for each query. *)
Lemma contrastive_retrieval_fewer_subjects :
  ∃ out : list (list (list string)),
    contrastive_retrieval exact_match plain_dataset ["a"; "b"]
      [["x1"; "x2"; "x3"]; ["y1"]] [["g1"; "g2"; "g3"]; ["h1"]] 3 2 = inr out ∧
    Forall (fun subjects => length subjects = 2%nat ∧ length subjects ≠ 3%nat) out.
Proof.
  eexists. split; [reflexivity|]. repeat constructor; simpl; lia.
Qed.

(** C9. With a single query [contrastive_retrieval] produces no exemplar
    at all: the one-by-one similarity of the query with itself is squeezed
    to a float, the ranking is the flat list [[0]], and the slice
    [ce_retr[-num_ce:]] of its element, an integer, raises [TypeError],
    whatever the documents, [num_ce] and [ce_k] are. *)
Theorem contrastive_retrieval_single_query (be : Backend) (ds : Dataset) (query : string)
    (retr_texts retr_gts : list (list string)) (num_ce ce_k : Z) :
  similarity_raises be [embed be query] [embed be query] = false →
  contrastive_retrieval be ds [query] retr_texts retr_gts num_ce ce_k = inl TypeError.
Proof.
  intros Hsim. unfold contrastive_retrieval, get_retrieval_results, _neural_retrieval.
  rewrite similarity_batches by done. cbn [_encode map batch]. by rewrite Hsim.
Qed.

Lemma contrastive_retrieval_single_query_witness :
  contrastive_retrieval exact_match plain_dataset ["a"]
    [["x1"; "x2"; "x3"]] [["g1"; "g2"; "g3"]] 1 2 = inl TypeError.
Proof.
  apply (contrastive_retrieval_single_query exact_match plain_dataset "a"
           [["x1"; "x2"; "x3"]] [["g1"; "g2"; "g3"]] 1 2).
  reflexivity.
Defined.

(** Without any query the same happens: the array of shape [(0,)] is one
    vector to the similarity call, and the ranking is the flat list [[0]]. *)
Lemma contrastive_retrieval_no_query (be : Backend) (ds : Dataset)
    (retr_texts retr_gts : list (list string)) (num_ce ce_k : Z) :
  contrastive_retrieval be ds [] retr_texts retr_gts num_ce ce_k = inl TypeError.
Proof. reflexivity. Qed.

(** With two queries the entries come in reversed query order: the first
    entry of the result holds the exemplars selected for the second query
    ["b"], and the subject selected for a query is the query itself, the
    last index of its ascending argsort. *)
Lemma contrastive_retrieval_reversed_rows :
  contrastive_retrieval exact_match plain_dataset ["a"; "b"]
    [["x1"; "x2"; "x3"]; ["y1"]] [["g1"; "g2"; "g3"]; ["h1"]] 1 1
  = inr [[[field "abstract" "y1" +:+ nl +:+ field "title" "h1"]];
         [[field "abstract" "x1" +:+ nl +:+ field "title" "g1"]]].
Proof. reflexivity. Qed.

(** Asked for no exemplar subject, the slice [[-0:]] selects them all. *)
Lemma contrastive_retrieval_zero_subjects :
  ∃ out : list (list (list string)),
    contrastive_retrieval exact_match plain_dataset ["a"; "b"]
      [["x1"; "x2"; "x3"]; ["y1"]] [["g1"; "g2"; "g3"]; ["h1"]] 0 2 = inr out ∧
    Forall (fun subjects => length subjects = 2%nat) out.
Proof. eexists. split; [reflexivity|]. repeat constructor. Qed.

(** ** get_context and the ranking cache *)

Lemma foldM_app {St A B} (f : B → A → M St B) (b : B) (l1 l2 : list A) (s : St) :
  foldM f b (l1 ++ l2)%list s
  = match foldM f b l1 s with
    | Ok b' s' => foldM f b' l2 s'
    | Raise e s' => Raise e s'
    | OutOfFuel => OutOfFuel
    end.
Proof.
  revert b s. induction l1 as [|x l1 IH]; intros b s; simpl; [done|].
  unfold bind. destruct (f b x s); auto.
Qed.

Lemma save_file_flushed (obj : list (list nat)) (d : disk) :
  save_file obj d = Ok tt (flushed d obj).
Proof. reflexivity. Qed.

Section GetContext.
Variables (be : Backend) (ds : Dataset) (n_queries : nat).
Variables (retr_texts retr_gts : list (list string)) (k : Z).

Local Abbreviation step := (get_context_step be ds n_queries retr_texts retr_gts k).

(** A pass whose ranking is in the cache reads it and writes nothing. *)
Lemma get_context_step_hit (st : ctx_state) (i : nat) (query : string) (d : disk)
    (retr_text retr_gt : list string) (sorted_idxs : list nat) :
  retr_texts !! i = Some retr_text →
  retr_gts !! i = Some retr_gt →
  all_idxs st !! i = Some sorted_idxs →
  step st (i, query) d
  = match build_examples ds i retr_text retr_gt k sorted_idxs with
    | inl e => Raise e d
    | inr examples => Ok (mkCtx (all_idxs st) (all_examples st ++ [examples])) d
    end.
Proof.
  intros Htext Hgt Hhit. pose proof (lookup_lt_Some _ _ _ Hhit) as Hlt.
  unfold get_context_step, bind, lift, ret, index. rewrite Htext, Hgt.
  destruct (Nat.ltb_spec i (length (all_idxs st))); [|lia]. rewrite Hhit.
  by destruct (build_examples _ _ _ _ _ _).
Qed.

(** A pass whose ranking is not in the cache computes it, appends it, and
    overwrites the file when a flush is due. *)
Lemma get_context_step_fresh (st : ctx_state) (i : nat) (query : string) (d : disk)
    (retr_text retr_gt : list string) :
  retr_texts !! i = Some retr_text →
  retr_gts !! i = Some retr_gt →
  (length (all_idxs st) ≤ i)%nat →
  step st (i, query) d
  = match get_retrieval_results be (DStr query) (DList retr_text) with
    | inl e => Raise e d
    | inr (_, IMatrix _) => Raise TypeError d
    | inr (_, IList sorted_idxs) =>
        let idxs := (all_idxs st ++ [sorted_idxs])%list in
        let d' := if flush_due n_queries i then flushed d idxs else d in
        match build_examples ds i retr_text retr_gt k sorted_idxs with
        | inl e => Raise e d'
        | inr examples => Ok (mkCtx idxs (all_examples st ++ [examples])) d'
        end
    end.
Proof.
  intros Htext Hgt Hmiss.
  unfold get_context_step, bind, lift, ret, index. rewrite Htext, Hgt.
  destruct (Nat.ltb_spec i (length (all_idxs st))); [lia|].
  destruct (get_retrieval_results _ _ _) as [e|[sc [sorted_idxs|m]]]; [done| |done].
  destruct (flush_due n_queries i); [rewrite save_file_flushed|];
    by destruct (build_examples _ _ _ _ _ _).
Qed.

Lemma get_context_step_no_subject (st : ctx_state) (i : nat) (query : string) (d : disk) :
  retr_texts !! i = None ∨ retr_gts !! i = None →
  step st (i, query) d = Raise IndexError d.
Proof.
  unfold get_context_step, bind, lift, ret, index.
  intros [->| ->]; [done|]. by destruct (retr_texts !! i).
Qed.

(** Every outcome of one pass, when the cache in memory holds at least the
    rankings of the queries before [i]. *)
Lemma get_context_step_outcome (st : ctx_state) (i : nat) (query : string) (d : disk) :
  (i ≤ length (all_idxs st))%nat →
  match step st (i, query) d with
  | Ok st' d' =>
      ∃ (retr_text retr_gt : list string) (sorted_idxs : list nat) (examples : list string),
        retr_texts !! i = Some retr_text ∧ retr_gts !! i = Some retr_gt ∧
        build_examples ds i retr_text retr_gt k sorted_idxs = inr examples ∧
        all_examples st' = (all_examples st ++ [examples])%list ∧
        ((all_idxs st !! i = Some sorted_idxs ∧ all_idxs st' = all_idxs st ∧ d' = d) ∨
         (length (all_idxs st) = i ∧
          all_idxs st' = (all_idxs st ++ [sorted_idxs])%list ∧
          d' = if flush_due n_queries i
               then flushed d (all_idxs st ++ [sorted_idxs])%list else d))
  | Raise _ d' =>
      d' = d ∨
      (length (all_idxs st) = i ∧ flush_due n_queries i = true ∧
       ∃ sorted_idxs : list nat, d' = flushed d (all_idxs st ++ [sorted_idxs])%list)
  | OutOfFuel => False
  end.
Proof.
  intros Hi.
  destruct (retr_texts !! i) as [retr_text|] eqn:Htext;
    [|rewrite get_context_step_no_subject; auto].
  destruct (retr_gts !! i) as [retr_gt|] eqn:Hgt;
    [|rewrite get_context_step_no_subject; auto].
  destruct (all_idxs st !! i) as [sorted_idxs|] eqn:Hhit.
  - rewrite (get_context_step_hit _ _ _ _ _ _ _ Htext Hgt Hhit).
    destruct (build_examples _ _ _ _ _ _) as [e|examples] eqn:Hbuild; [by left|].
    exists retr_text, retr_gt, sorted_idxs, examples. simpl. auto 10.
  - apply lookup_ge_None in Hhit.
    rewrite (get_context_step_fresh _ _ _ _ _ _ Htext Hgt Hhit).
    destruct (get_retrieval_results _ _ _) as [e|[sc [sorted_idxs|m]]]; [by left| |by left].
    cbv zeta.
    destruct (build_examples _ _ _ _ _ _) as [e|examples] eqn:Hbuild.
    + destruct (flush_due n_queries i); [right | by left].
      repeat split; [lia | eauto].
    + exists retr_text, retr_gt, sorted_idxs, examples. simpl.
      do 4 (split; [done|]). right. repeat split. lia.
Qed.
Lemma history_kept_flushed (d : disk) (c idxs : list (list nat)) :
  readable (now d) = Some c → c `prefix_of` idxs → history_kept d →
  history_kept (flushed d idxs).
Proof.
  intros Hc Hpre Hkept f old Hf Hold. exists idxs. split; [done|].
  cbn [flushed before] in Hf.
  apply elem_of_cons in Hf as [->|Hf]; [done|].
  apply elem_of_cons in Hf as [->|Hf]; [congruence|].
  destruct (Hkept f old Hf Hold) as (c' & Hc' & Hpre'). by etrans; [|exact Hpre]; congruence.
Qed.

(** One pass keeps the invariant; if it raises, the file has still kept
    what it ever held. *)
Lemma cache_inv_step (st : ctx_state) (i : nat) (query : string) (d : disk) :
  cache_inv n_queries i (all_idxs st) d →
  (i < n_queries)%nat →
  match step st (i, query) d with
  | Ok st' d' => cache_inv n_queries (S i) (all_idxs st') d'
  | Raise _ d' => history_kept d'
  | OutOfFuel => False
  end.
Proof.
  intros (c & Hc & Hpre & Htail & Hi & Hhits & Hend & Hwritten & Hkept) Hlt.
  pose proof (get_context_step_outcome st i query d Hi) as Hstep.
  pose proof (prefix_length _ _ Hpre) as Hlen.
  destruct (step st (i, query) d) as [st' d'|e d'|]; [| |done].
  - destruct Hstep as (retr_text & retr_gt & sorted_idxs & examples & _ & _ & _ & _ & Hcase).
    destruct Hcase as [(Hhit & -> & ->)|(Hfresh & -> & ->)].
    + apply lookup_lt_Some in Hhit. specialize (Hhits Hhit).
      exists c. repeat split; auto; lia.
    + unfold flush_due. rewrite <- Hfresh in *.
      set (idxs := all_idxs st) in *.
      assert (length (idxs ++ [sorted_idxs])%list = (length idxs + 1)%nat) as Hgrow
        by (by rewrite length_app).
      assert (c `prefix_of` (idxs ++ [sorted_idxs])%list) as Hpre' by (by apply prefix_app_r).
      destruct ((length idxs + 1) mod 500 =? 0)%nat eqn:Emod;
        [|destruct (length idxs + 1 =? n_queries)%nat eqn:Elast]; cbn [orb].
      1,2: exists (idxs ++ [sorted_idxs])%list; rewrite Hgrow;
           repeat split; auto; try lia; try (by eapply history_kept_flushed);
           right; first [left; by apply Nat.eqb_eq | right; by apply Nat.eqb_eq].
      apply Nat.eqb_neq in Emod, Elast.
      exists c. rewrite Hgrow. repeat split; auto; try lia.
      pose proof (Nat.div_mod_eq (length idxs) 500).
      pose proof (Nat.div_mod_eq (length idxs + 1) 500).
      pose proof (Nat.mod_upper_bound (length idxs) 500 ltac:(lia)).
      pose proof (Nat.mod_upper_bound (length idxs + 1) 500 ltac:(lia)).
      lia.
  - destruct Hstep as [->|(_ & _ & sorted_idxs & ->)]; [done|].
    eapply history_kept_flushed; [done | by apply prefix_app_r | done].
Qed.

(** The passes over the queries [qs], numbered from [i]. *)
Lemma cache_inv_fold (qs : list string) (i : nat) (st : ctx_state) (d : disk) :
  cache_inv n_queries i (all_idxs st) d →
  (i + length qs ≤ n_queries)%nat →
  match foldM step st (zip (seq i (length qs)) qs) d with
  | Ok st' d' => cache_inv n_queries (i + length qs) (all_idxs st') d'
  | Raise _ d' => history_kept d'
  | OutOfFuel => False
  end.
Proof.
  revert i st d.
  induction qs as [|query qs IH]; intros i st d Hinv Hlen; cbn [length seq zip_with foldM].
  - rewrite Nat.add_0_r. done.
  - cbn [length] in Hlen. unfold bind.
    pose proof (cache_inv_step st i query d Hinv ltac:(lia)) as Hstep.
    destruct (step st (i, query) d) as [st1 d1|e d1|]; [|done..].
    specialize (IH (S i) st1 d1 Hstep ltac:(lia)).
    by replace (i + S (length qs))%nat with (S i + length qs)%nat by lia.
Qed.

(** A run leaves the disk as it was or adds to its history. *)
Lemma foldM_disk_grows (l : list (nat * string)) (st : ctx_state) (d : disk) :
  match foldM step st l d with
  | Ok _ d' => d' = d ∨ before d' ≠ []
  | _ => True
  end.
Proof.
  revert st d. induction l as [|[i query] l IH]; intros st d; cbn [foldM]; [by left|].
  unfold bind.
  assert (match step st (i, query) d with
          | Ok _ d1 => d1 = d ∨ before d1 ≠ []
          | _ => True
          end) as Hstep.
  { destruct (retr_texts !! i) as [retr_text|] eqn:Htext;
      [|by rewrite get_context_step_no_subject; auto].
    destruct (retr_gts !! i) as [retr_gt|] eqn:Hgt;
      [|by rewrite get_context_step_no_subject; auto].
    destruct (all_idxs st !! i) as [sorted_idxs|] eqn:Hhit.
    - rewrite (get_context_step_hit _ _ _ _ _ _ _ Htext Hgt Hhit).
      destruct (build_examples _ _ _ _ _ _); auto.
    - apply lookup_ge_None in Hhit.
      rewrite (get_context_step_fresh _ _ _ _ _ _ Htext Hgt Hhit).
      destruct (get_retrieval_results _ _ _) as [e|[sc [sorted_idxs|m]]]; [done| |done].
      cbv zeta. destruct (build_examples _ _ _ _ _ _); [done|].
      destruct (flush_due n_queries i); [by right | by left]. }
  destruct (step st (i, query) d) as [st1 d1|e d1|]; [|done..].
  specialize (IH st1 d1).
  destruct (foldM step st1 l d1) as [st' d'|e d'|]; [|done..].
  destruct IH as [->|Hne]; [done | by right].
Qed.

(** The passes that read everything from the cache change neither the cache
    nor the file, and build the examples from the cached rankings. *)
Lemma foldM_warm (qs : list string) (i : nat) (idxs : list (list nat))
    (examples new : list (list string)) (d : disk) :
  (i + length qs ≤ length idxs)%nat →
  Forall2 (fun '(j, _) exs =>
             ∃ (retr_text retr_gt : list string) (sorted_idxs : list nat),
               retr_texts !! j = Some retr_text ∧ retr_gts !! j = Some retr_gt ∧
               idxs !! j = Some sorted_idxs ∧
               build_examples ds j retr_text retr_gt k sorted_idxs = inr exs)
          (zip (seq i (length qs)) qs) new →
  foldM step (mkCtx idxs examples) (zip (seq i (length qs)) qs) d
  = Ok (mkCtx idxs (examples ++ new)) d.
Proof.
  revert i examples new.
  induction qs as [|query qs IH]; intros i examples new Hlen Hnew;
    cbn [length seq zip_with foldM] in *.
  - apply Forall2_nil_inv_l in Hnew as ->. by rewrite app_nil_r.
  - apply Forall2_cons_inv_l in Hnew
      as (exs & new' & (retr_text & retr_gt & sorted_idxs & Ht & Hg & Hhit & Hbuild) & Hnew' & ->).
    unfold bind.
    rewrite (get_context_step_hit (mkCtx idxs examples) i query d _ _ _ Ht Hg Hhit), Hbuild.
    cbn [all_idxs all_examples].
    rewrite (IH (S i) _ new') by (done || lia).
    by rewrite <- app_assoc.
Qed.

(** A run from a cache that holds exactly the rankings of the queries
    before [i]: the rankings it computes are appended, and the examples it
    returns are those a run reading the final cache builds. *)
Lemma foldM_cold (qs : list string) (i : nat) (st st' : ctx_state) (d d' : disk) :
  length (all_idxs st) = i →
  foldM step st (zip (seq i (length qs)) qs) d = Ok st' d' →
  all_idxs st `prefix_of` all_idxs st' ∧
  length (all_idxs st') = (i + length qs)%nat ∧
  ∃ new : list (list string),
    all_examples st' = (all_examples st ++ new)%list ∧
    Forall2 (fun '(j, _) exs =>
               ∃ (retr_text retr_gt : list string) (sorted_idxs : list nat),
                 retr_texts !! j = Some retr_text ∧ retr_gts !! j = Some retr_gt ∧
                 all_idxs st' !! j = Some sorted_idxs ∧
                 build_examples ds j retr_text retr_gt k sorted_idxs = inr exs)
            (zip (seq i (length qs)) qs) new.
Proof.
  revert i st d.
  induction qs as [|query qs IH]; intros i st d Hlen; cbn [length seq zip_with foldM].
  - intros [= <- <-]. repeat split; [done | lia |].
    exists []. split; [by rewrite app_nil_r | constructor].
  - unfold bind.
    pose proof (get_context_step_outcome st i query d ltac:(lia)) as Hstep.
    destruct (step st (i, query) d) as [st1 d1|e d1|]; [|done..].
    destruct Hstep as (retr_text & retr_gt & sorted_idxs & exs & Ht & Hg & Hbuild & Hexs & Hcase).
    destruct Hcase as [(Hhit & _)|(_ & Hidxs & _)].
    { apply lookup_lt_Some in Hhit. lia. }
    intros Hrest.
    destruct (IH (S i) st1 d1 ltac:(rewrite Hidxs, length_app; simpl; lia) Hrest)
      as (Hpre & Hlen' & new & Hnew & Hall).
    rewrite Hidxs in Hpre.
    split; [by etrans; [apply prefix_app_r|]|]. split; [lia|].
    exists (exs :: new). split.
    + rewrite Hnew, Hexs. by rewrite <- app_assoc.
    + constructor; [|done].
      exists retr_text, retr_gt, sorted_idxs. repeat split; try done.
      eapply prefix_lookup_Some; [|done].
      rewrite lookup_app_r by lia. by rewrite Hlen, Nat.sub_diag.
Qed.
End GetContext.

Lemma enumerate_take {A} (n : nat) (l : list A) :
  take n (enumerate l) = zip (seq 0 (length (take n l))) (take n l).
Proof. unfold enumerate. by rewrite zip_with_take, take_seq, length_take. Qed.

Lemma check_file_readable (d : disk) (c : list (list nat)) :
  readable (now d) = Some c → check_file d = Ok c d.
Proof. unfold check_file. destruct (now d); simpl; congruence. Qed.

Lemma check_file_truncated (d : disk) :
  readable (now d) = None → check_file d = Raise ValueError d.
Proof. unfold check_file. by destruct (now d). Qed.

Lemma cache_inv_start (n_queries : nat) (f : file) (c : list (list nat)) :
  readable f = Some c → cache_inv n_queries 0 c (mkDisk f []).
Proof.
  intros Hc. exists c. repeat split; auto; try lia.
  intros f' old Hf'. by apply elem_of_nil in Hf'.
Qed.

(** The whole run up to pass [n], from a file [f0]. *)
Lemma get_context_upto_inv (be : Backend) (ds : Dataset) (queries : list string)
    (retr_texts retr_gts : list (list string)) (k : Z) (f0 : file) (n : nat) :
  match get_context_upto n be ds queries retr_texts retr_gts k (mkDisk f0 []) with
  | Ok st d =>
      (before d = [] → now d = f0) ∧
      cache_inv (length queries) (n `min` length queries) (all_idxs st) d
  | Raise _ d => history_kept d
  | OutOfFuel => False
  end.
Proof.
  unfold get_context_upto, bind.
  destruct (readable f0) as [c|] eqn:Hc.
  - rewrite (check_file_readable (mkDisk f0 []) c Hc), enumerate_take.
    pose proof (cache_inv_fold be ds (length queries) retr_texts retr_gts k
                  (take n queries) 0 (mkCtx c []) (mkDisk f0 [])
                  (cache_inv_start _ f0 c Hc)) as Hfold.
    pose proof (foldM_disk_grows be ds (length queries) retr_texts retr_gts k
                  (zip (seq 0 (length (take n queries))) (take n queries))
                  (mkCtx c []) (mkDisk f0 [])) as Hgrows.
    rewrite length_take in *.
    destruct (foldM _ _ _ _) as [st d|e d|]; [|by apply Hfold; lia..].
    split; [|by apply Hfold; lia].
    destruct Hgrows as [->|Hne]; [done|]. intros Hnil. by rewrite Hnil in Hne.
  - rewrite (check_file_truncated (mkDisk f0 []) Hc).
    intros f old Hf. by apply elem_of_nil in Hf.
Qed.



(** C7. When a run of [get_context] that finds no cache file returns, a run
    on the same inputs with the file it left returns the same output and
    writes nothing: reading the rankings from the cache changes nothing in
    the result. *)
Theorem get_context_cache_transparent (be : Backend) (ds : Dataset) (queries : list string)
    (retr_texts retr_gts : list (list string)) (k : Z) (out : context_out) (d : disk) :
  get_context be ds queries retr_texts retr_gts k (mkDisk Absent []) = Ok out d →
  get_context be ds queries retr_texts retr_gts k d = Ok out d.
Proof.
  unfold get_context. destruct (k =? 0); [by intros [= <- <-]|].
  unfold bind.
  pose proof (get_context_upto_inv be ds queries retr_texts retr_gts k Absent
                (length queries)) as Hinv.
  destruct (get_context_upto _ _ _ _ _ _ _ (mkDisk Absent [])) as [st d'|e d'|] eqn:Hcold;
    [|done..].
  intros [= <- <-].
  destruct Hinv as (_ & c & Hc & _ & _ & _ & _ & Hend & _).
  rewrite Hend in Hc by lia.
  unfold get_context_upto, bind in *.
  rewrite (check_file_readable d' _ Hc).
  rewrite (check_file_readable (mkDisk Absent []) [] eq_refl) in Hcold.
  rewrite take_ge in * by (unfold enumerate; rewrite length_zip_with, length_seq; lia).
  unfold enumerate in *.
  destruct (foldM_cold be ds (length queries) retr_texts retr_gts k queries 0
              (mkCtx [] []) st (mkDisk Absent []) d' eq_refl Hcold)
    as (_ & Hlen & new & Hnew & Hall).
  rewrite (foldM_warm be ds (length queries) retr_texts retr_gts k queries 0
             (all_idxs st) [] new d' ltac:(lia) Hall).
  cbn [all_examples] in *. by rewrite Hnew.
Qed.

Lemma get_context_cache_transparent_witness :
  get_context exact_match plain_dataset ["a"; "b"]
    [["a"; "b"; "c"]; ["x"]] [["a"; "y"; "z"]; ["w"]] 2
    (mkDisk (Saved [[0; 2; 1]; [0]]%nat) [Truncated; Absent])
  = Ok (Nested [[field "abstract" "a";
                 field "abstract" "c" +:+ nl +:+ field "title" "z" +:+ nl];
                [field "abstract" "x" +:+ nl +:+ field "title" "w" +:+ nl]])
       (mkDisk (Saved [[0; 2; 1]; [0]]%nat) [Truncated; Absent]).
Proof.
  apply (get_context_cache_transparent exact_match plain_dataset ["a"; "b"]
           [["a"; "b"; "c"]; ["x"]] [["a"; "y"; "z"]; ["w"]] 2).
  reflexivity.
Defined.

(** * Further properties of the token-budget manager *)

(** The fitting loop returns the join of the longest prefix of the ranked
    documents that fits: what it returns fits, and every longer prefix was
    tried and did not. *)
Lemma fitting_loop_longest (llm : LLM) (fuel : nat) (avail_space : Z)
    (context : list string) (info : string) :
  fitting_loop llm fuel avail_space context = Some info →
  ∃ n : nat,
    (n ≤ length context)%nat ∧
    info = join_lines (take n context) ∧
    count_tokens llm (PStr info) ≤ avail_space ∧
    ∀ m : nat, (n < m ≤ length context)%nat →
      avail_space < count_tokens llm (PStr (join_lines (take m context))).
Proof.
  revert context. induction fuel as [|fuel IH]; intros context; simpl; [discriminate|].
  destruct (Z.ltb_spec avail_space (count_tokens llm (PStr (join_lines context))))
    as [Hover|Hfits].
  - intros Hrest. destruct (IH _ Hrest) as (n & Hn & -> & Hfit & Hlonger).
    rewrite removelast_firstn_len in *. rewrite length_take in Hn.
    exists n. split; [lia|]. split; [by rewrite take_take, Nat.min_l by lia|].
    split; [done|]. intros m Hm.
    destruct (decide (m = length context)) as [->|Hne].
    + by rewrite firstn_all.
    + specialize (Hlonger m). rewrite length_take, take_take in Hlonger.
      replace (m `min` Init.Nat.pred (length context))%nat with m in Hlonger by lia.
      apply Hlonger. lia.
  - intros [= <-]. exists (length context). rewrite firstn_all.
    repeat split; [lia..|]. intros m Hm. lia.
Qed.

(** The history location [prepare_context] goes on with is the caller's. *)
Lemma prepare_context_same_history (llm : LLM) (r r' : loc) (h h' : heap) :
  (match h !!! r with
   | [] => ret r
   | _ :: _ => trunc_chat_history llm r (2 # 10)
   end) h = Ok r' h' →
  r' = r.
Proof.
  destruct (h !!! r); [by intros [= <- _]|].
  unfold trunc_chat_history, bind, get_state, ret.
  destruct (trunc_loop _ _ _ _ _ h); [|done..]. by intros [= <- _].
Qed.

(** What [prepare_context] returns as context comes out of the fitting loop,
    run with the space left after the truncated history and the query. *)
Lemma prepare_context_info (llm : LLM) (fuel : nat) (p : prompt)
    (context : list string) (query : option string) (chat_history : loc)
    (h h' : heap) (info : string) :
  prepare_context llm fuel p context query chat_history h = Ok (Info info) h' →
  ∃ space : Z,
    get_avail_space llm (PTurns (as_turns p ++ h' !!! chat_history)%list) = Some space ∧
    fitting_loop llm fuel (space - query_tokens llm query) context = Some info.
Proof.
  unfold prepare_context, bind, get_state.
  destruct ((match h !!! chat_history with
             | [] => ret chat_history
             | _ :: _ => trunc_chat_history llm chat_history (2 # 10)
             end) h) as [r h1|e h1|] eqn:Htrunc; [|discriminate..].
  apply prepare_context_same_history in Htrunc as ->.
  destruct (get_avail_space llm _) as [space|] eqn:Hspace; [|discriminate].
  destruct (_ =? 0); [discriminate|].
  destruct (fitting_loop llm fuel _ context) as [s|] eqn:Hloop; [|discriminate].
  intros [= -> ->]. exists space. by rewrite Hspace.
Qed.

(** X1. When [prepare_context] returns assembled context, that context is
    the join of the first [n] documents in their rank order, it fits the
    space left by the prompt, the truncated history and the query, and no
    longer prefix of the documents fits. *)
Theorem prepare_context_longest_prefix (llm : LLM) (fuel : nat) (p : prompt)
    (context : list string) (query : option string) (chat_history : loc)
    (h h' : heap) (info : string) :
  prepare_context llm fuel p context query chat_history h = Ok (Info info) h' →
  ∃ (space : Z) (n : nat),
    get_avail_space llm (PTurns (as_turns p ++ h' !!! chat_history)%list) = Some space ∧
    (n ≤ length context)%nat ∧
    info = join_lines (take n context) ∧
    count_tokens llm (PStr info) ≤ space - query_tokens llm query ∧
    ∀ m : nat, (n < m ≤ length context)%nat →
      space - query_tokens llm query
      < count_tokens llm (PStr (join_lines (take m context))).
Proof.
  intros Hrun. destruct (prepare_context_info _ _ _ _ _ _ _ _ _ Hrun) as (space & Hspace & Hloop).
  destruct (fitting_loop_longest _ _ _ _ _ Hloop) as (n & Hn & Hinfo & Hfit & Hlonger).
  by exists space, n.
Qed.

Lemma prepare_context_longest_prefix_witness :
  ∃ (space : Z) (n : nat),
    get_avail_space (char_llm 10 2) (PTurns [Turn "user" "hello"]) = Some space ∧
    "ab" = join_lines (take n ["ab"; "cd"]).
Proof.
  destruct (prepare_context_longest_prefix (char_llm 10 2) 5 (PStr "hello")
              ["ab"; "cd"] None 0%nat ∅ ∅ "ab")
    as (space & n & Hspace & _ & Hinfo & _); [reflexivity|].
  exists space, n. split; [exact Hspace | exact Hinfo].
Defined.

(** X2. With an empty history, a prompt and a query that leave positive
    space, room for the empty text, and one pass of the loop per document
    and one more, [prepare_context] returns assembled context and leaves the
    heap alone. *)
Theorem prepare_context_returns (llm : LLM) (fuel : nat) (p : prompt)
    (context : list string) (query : option string) (r : loc) (h : heap) (space : Z) :
  h !!! r = [] →
  get_avail_space llm (PTurns (as_turns p)) = Some space →
  0 < space - query_tokens llm query →
  count_tokens llm (PStr EmptyString) ≤ space - query_tokens llm query →
  (length context < fuel)%nat →
  ∃ info : string,
    prepare_context llm fuel p context query r h = Ok (Info info) h ∧
    count_tokens llm (PStr info) ≤ space - query_tokens llm query.
Proof.
  intros Hr Hspace Hpos Hempty Hfuel.
  destruct (prepare_context_positive_space llm fuel p context query r h Hr space
              Hspace Hpos Hempty Hfuel) as [info Hrun].
  exists info. split; [done|].
  destruct (prepare_context_info _ _ _ _ _ _ _ _ _ Hrun) as (space' & Hspace' & Hloop).
  rewrite Hr, app_nil_r, Hspace in Hspace'. injection Hspace' as <-.
  by eapply fitting_loop_fits.
Qed.

Lemma prepare_context_returns_witness :
  ∃ info : string,
    prepare_context (char_llm 10 2) 5 (PStr "hello") ["ab"; "cd"] (Some "q") 0%nat ∅
    = Ok (Info info) ∅ ∧
    count_tokens (char_llm 10 2) (PStr info) ≤ 3 - query_tokens (char_llm 10 2) (Some "q").
Proof.
  apply (prepare_context_returns (char_llm 10 2) 5 (PStr "hello") ["ab"; "cd"]
           (Some "q") 0%nat ∅ 3); [reflexivity | reflexivity | | | simpl; lia];
    vm_compute; congruence.
Defined.

(** A history within the budget is left as it is. *)
Lemma trunc_chat_history_fits (llm : LLM) (share : Q) (r : loc) (h : heap) :
  hist_tokens llm (h !!! r) ≤ hist_budget llm →
  trunc_chat_history llm r share h = Ok r h.
Proof.
  intros Hfit. unfold trunc_chat_history, bind, get_state. fold (hist_budget llm).
  assert (trunc_loop llm r (hist_budget llm) (hist_tokens llm (h !!! r)) (h !!! r) h
          = Ok tt h) as ->; [|done].
  generalize dependent (h !!! r). intros hist Hfit.
  destruct hist as [|tm rest]; cbn [trunc_loop];
    match goal with
    | |- context [?a <? ?b] => by destruct (Z.ltb_spec a b); [lia|]
    end.
Qed.

(** X3. [trunc_chat_history] removes as few of the oldest turns as bring the
    history within [int(context_length*0.2)] tokens: what is left fits, and
    with any turn more kept it would not. *)
Theorem trunc_chat_history_removes_fewest (llm : LLM) (share : Q) (r : loc) (h : heap) :
  0 ≤ context_length llm →
  ∃ (n : nat) (h' : heap),
    trunc_chat_history llm r share h = Ok r h' ∧
    h' !!! r = drop n (h !!! r) ∧
    hist_tokens llm (h' !!! r) ≤ hist_budget llm ∧
    ∀ m : nat, (m < n)%nat → hist_budget llm < hist_tokens llm (drop m (h !!! r)).
Proof.
  intros Hc.
  destruct (trunc_chat_history_spec llm share r h Hc) as (n & h' & Hrun & Hr & _ & Hfit & Hmin).
  exists n, h'. auto.
Qed.

Lemma trunc_chat_history_removes_fewest_witness :
  ∃ (n : nat) (h' : heap),
    trunc_chat_history (char_llm 10 2) 0%nat (2 # 10)
      {[ 0%nat := [Turn "user" "abc"; Turn "assistant" "d"] ]} = Ok 0%nat h' ∧
    hist_tokens (char_llm 10 2) (h' !!! 0%nat) ≤ hist_budget (char_llm 10 2).
Proof.
  destruct (trunc_chat_history_removes_fewest (char_llm 10 2) (2 # 10) 0%nat
              {[ 0%nat := [Turn "user" "abc"; Turn "assistant" "d"] ]})
    as (n & h' & Hrun & _ & Hfit & _); [simpl; lia|].
  exists n, h'. split; [exact Hrun | exact Hfit].
Defined.

(** X4. Truncating a truncated history changes nothing: a second call
    returns the same list and leaves the heap as the first call left it. *)
Theorem trunc_chat_history_idempotent (llm : LLM) (share share' : Q) (r r' : loc)
    (h h' : heap) :
  0 ≤ context_length llm →
  trunc_chat_history llm r share h = Ok r' h' →
  trunc_chat_history llm r' share' h' = Ok r' h'.
Proof.
  intros Hc Hrun.
  destruct (trunc_chat_history_spec llm share r h Hc) as (n & h1 & Hrun1 & _ & _ & Hfit & _).
  rewrite Hrun in Hrun1. injection Hrun1 as -> ->.
  by apply trunc_chat_history_fits.
Qed.

Lemma trunc_chat_history_idempotent_witness :
  trunc_chat_history (char_llm 10 2) 0%nat (2 # 10)
    (<[0%nat := [Turn "assistant" "d"]]>
       {[ 0%nat := [Turn "user" "abc"; Turn "assistant" "d"] ]})
  = Ok 0%nat (<[0%nat := [Turn "assistant" "d"]]>
                {[ 0%nat := [Turn "user" "abc"; Turn "assistant" "d"] ]}).
Proof.
  apply (trunc_chat_history_idempotent (char_llm 10 2) (2 # 10) (2 # 10) 0%nat 0%nat
           {[ 0%nat := [Turn "user" "abc"; Turn "assistant" "d"] ]});
    [simpl; lia | reflexivity].
Defined.

(** With a negative budget the loop pops until the list is empty and then
    pops once more. *)
Lemma trunc_loop_negative (llm : LLM) (r : loc) (budget : Z) (hist : list turn) (h : heap) :
  budget < 0 →
  trunc_loop llm r budget (hist_tokens llm hist) hist h
  = Raise IndexError (match hist with [] => h | _ :: _ => <[r := []]> h end).
Proof.
  intros Hneg. revert h. induction hist as [|tm rest IH]; intros h; cbn [trunc_loop].
  - simpl. by destruct (Z.ltb_spec budget 0); [|lia].
  - pose proof (hist_tokens_nonneg llm (tm :: rest)).
    destruct (Z.ltb_spec budget (hist_tokens llm (tm :: rest))); [|lia].
    unfold bind at 1.
    replace (hist_tokens llm (tm :: rest) - count_tokens llm (PStr (content tm)))
      with (hist_tokens llm rest) by (simpl; lia).
    rewrite IH. f_equal. destruct rest; [done|]. by rewrite insert_insert_eq.
Qed.

(** X5. A context length of -5 or less makes the budget negative: on a
    non-empty history [trunc_chat_history] then raises [IndexError], and the
    caller's list is empty by the time it does. *)
Theorem trunc_chat_history_negative_budget (llm : LLM) (share : Q) (r : loc) (h : heap) :
  context_length llm ≤ -5 →
  h !!! r ≠ [] →
  trunc_chat_history llm r share h = Raise IndexError (<[r := []]> h).
Proof.
  intros Hc Hne.
  assert (hist_budget llm < 0) as Hneg.
  { rewrite hist_budget_quot.
    rewrite <- (Z.opp_involutive (context_length llm * 2)), Z.quot_opp_l by lia.
    rewrite Z.quot_div_nonneg by lia.
    assert (1 ≤ - (context_length llm * 2) / 10); [|lia].
    apply Z.div_le_lower_bound; lia. }
  unfold trunc_chat_history, bind, get_state. fold (hist_budget llm).
  rewrite trunc_loop_negative by done. by destruct (h !!! r).
Qed.

Lemma trunc_chat_history_negative_budget_witness :
  trunc_chat_history (char_llm (-5) 2) 0%nat (2 # 10) {[ 0%nat := [Turn "user" "abc"] ]}
  = Raise IndexError (<[0%nat := []]> {[ 0%nat := [Turn "user" "abc"] ]}).
Proof.
  apply (trunc_chat_history_negative_budget (char_llm (-5) 2) (2 # 10) 0%nat
           {[ 0%nat := [Turn "user" "abc"] ]}); [simpl; lia | done].
Defined.

(** * Further properties of the retriever *)

(** ** Ranking one query against a pool *)

(** The scores of a query against the documents of a pool. *)
Lemma ranking_single_query (be : Backend) (query : string) (documents : list string) :
  documents ≠ [] →
  similarity_raises be [embed be query] (map (embed be) documents) = false →
  let similarities := map (sim be (embed be query)) (map (embed be) documents) in
  get_retrieval_results be (DStr query) (DList documents)
  = inr (SList similarities,
         IList (match documents with
                | [_] => [0%nat]
                | _ => reverse (argsort be similarities)
                end)).
Proof.
  intros Hne Hsim. unfold get_retrieval_results, _neural_retrieval.
  rewrite (_encode_list be documents Hne), similarity_batches by done.
  cbn [_encode batch n_vectors]. rewrite Hsim. simpl. rewrite length_map.
  destruct documents as [|d1 [|d2 documents]]; done.
Qed.

(** X6. A single query ranked against a non-empty pool (by an embedding
    model whose similarity call returns): the result has one score per
    document, in document order, and the ranking is a permutation of the
    document indices; a pool of one document gives one score and the
    ranking [[0]]. *)
Theorem ranking_is_permutation (be : Backend) (query : string) (documents : list string) :
  argsort_permutes be →
  documents ≠ [] →
  similarity_raises be [embed be query] (map (embed be) documents) = false →
  ∃ sorted_idxs : list nat,
    get_retrieval_results be (DStr query) (DList documents)
    = inr (SList (map (fun d => sim be (embed be query) (embed be d)) documents),
           IList sorted_idxs) ∧
    sorted_idxs ≡ₚ seq 0 (length documents).
Proof.
  intros Hperm Hne Hsim.
  rewrite (ranking_single_query be query documents Hne Hsim). cbv zeta.
  rewrite map_map. eexists. split; [reflexivity|].
  destruct documents as [|d1 [|d2 documents]]; [done..|].
  rewrite reverse_Permutation, (Hperm _). by rewrite !length_map.
Qed.

(** X7. With an argsort that sorts, the ranking of a single query lists the
    documents by descending score: a document ranked earlier never has a
    smaller score than one ranked later. *)
Theorem ranking_is_descending (be : Backend) (query : string) (documents : list string)
    (similarities : list Q) (sorted_idxs : list nat) (i j a b : nat) (x y : Q) :
  argsort_sorts be →
  get_retrieval_results be (DStr query) (DList documents)
  = inr (SList similarities, IList sorted_idxs) →
  (i ≤ j)%nat →
  sorted_idxs !! i = Some a → sorted_idxs !! j = Some b →
  similarities !! a = Some x → similarities !! b = Some y →
  (y <= x)%Q.
Proof.
  intros Hsorts Hrun Hij Ha Hb Hx Hy.
  unfold get_retrieval_results, _neural_retrieval in Hrun.
  destruct documents as [|d1 documents]; [done|].
  rewrite _encode_list, similarity_batches in Hrun by done.
  cbn [_encode batch n_vectors] in Hrun.
  destruct (similarity_raises be _ _); [done|]. simpl in Hrun. rewrite length_map in Hrun.
  destruct documents as [|d2 documents]; simpl in Hrun.
  - injection Hrun as <- <-.
    apply list_lookup_singleton_Some in Ha as [_ <-].
    apply list_lookup_singleton_Some in Hb as [_ <-].
    rewrite Hx in Hy. injection Hy as <-. apply Qle_refl.
  - injection Hrun as <- <-.
    pose proof (lookup_lt_Some _ _ _ Ha) as Hi. pose proof (lookup_lt_Some _ _ _ Hb) as Hj.
    rewrite length_reverse in Hi, Hj.
    rewrite reverse_lookup in Ha, Hb by done.
    eapply (Hsorts _ _ _ b a y x); [|exact Hb|exact Ha|exact Hy|exact Hx]. lia.
Qed.

(** The sample argsort sorts. *)
Lemma insert_scored_sorted (x : Q * nat) (l : list (Q * nat)) :
  StronglySorted (fun p q => (fst p <= fst q)%Q) l →
  StronglySorted (fun p q => (fst p <= fst q)%Q) (insert_scored x l).
Proof.
  induction l as [|y l IH]; intros Hsorted; simpl.
  - repeat constructor.
  - apply StronglySorted_inv in Hsorted as [Hl Hy].
    destruct (Qle_bool (fst x) (fst y)) eqn:E.
    + apply Qle_bool_iff in E. constructor; [by constructor|].
      constructor; [done|].
      eapply Forall_impl; [exact Hy|]. intros z Hz. simpl in *. by eapply Qle_trans.
    + assert (fst y <= fst x)%Q as Hyx.
      { apply Qlt_le_weak, Qnot_le_lt. intros Hle. apply Qle_bool_iff in Hle. congruence. }
      constructor; [by apply IH|].
      rewrite (insert_scored_perm x l). by constructor.
Qed.

Lemma StronglySorted_lookup {A} (R : A → A → Prop) (l : list A) (i j : nat) (x y : A) :
  StronglySorted R l → (i < j)%nat → l !! i = Some x → l !! j = Some y → R x y.
Proof.
  intros Hsorted. revert i j.
  induction Hsorted as [|z l Hl IH Hz]; intros i j Hij Hi Hj; [by rewrite lookup_nil in Hi|].
  destruct j as [|j]; [lia|]. destruct i as [|i]; simpl in *.
  - injection Hi as <-. rewrite Forall_forall in Hz. apply Hz.
    by eapply list_elem_of_lookup_2.
  - apply (IH i j); [lia | done..].
Qed.

Lemma stable_argsort_sorts : argsort_sorts exact_match.
Proof.
  intros l i j a b x y Hij Ha Hb Hx Hy. simpl in Ha, Hb. unfold stable_argsort in Ha, Hb.
  set (pairs := foldr insert_scored [] (zip l (seq 0 (length l)))) in *.
  assert (StronglySorted (fun p q => (fst p <= fst q)%Q) pairs) as Hsorted.
  { subst pairs. generalize (zip l (seq 0 (length l))). intros l'.
    induction l' as [|p l' IH]; simpl; [constructor | by apply insert_scored_sorted]. }
  assert (pairs ≡ₚ zip l (seq 0 (length l))) as Hperm.
  { subst pairs. generalize (zip l (seq 0 (length l))). intros l'.
    induction l' as [|p l' IH]; simpl; [done | by rewrite insert_scored_perm, IH]. }
  assert (∀ (n c : nat), map snd pairs !! n = Some c →
            ∃ v : Q, pairs !! n = Some (v, c) ∧ l !! c = Some v) as Hentry.
  { intros n c Hn. rewrite list_lookup_fmap in Hn.
    destruct (pairs !! n) as [[v c']|] eqn:Hp; [|done]. simpl in Hn. injection Hn as ->.
    exists v. split; [done|].
    apply list_elem_of_lookup_2 in Hp. rewrite Hperm in Hp.
    apply list_elem_of_lookup_1 in Hp as [m Hm].
    apply lookup_zip_with_Some in Hm as (v' & c' & [= <- <-] & Hv & Hc).
    apply lookup_seq in Hc as [-> _]. done. }
  destruct (Hentry i a Ha) as (v & Hpi & Hv). destruct (Hentry j b Hb) as (w & Hpj & Hw).
  rewrite Hx in Hv. injection Hv as <-. rewrite Hy in Hw. injection Hw as <-.
  destruct (decide (i = j)) as [->|Hne].
  - rewrite Hpi in Hpj. injection Hpj as -> _. apply Qle_refl.
  - apply (StronglySorted_lookup _ pairs i j (x, a) (y, b) Hsorted); [lia | done..].
Qed.

Lemma ranking_is_permutation_witness :
  ∃ sorted_idxs : list nat,
    get_retrieval_results exact_match (DStr "a") (DList ["b"; "a"; "c"])
    = inr (SList [0%Q; 1%Q; 0%Q], IList sorted_idxs) ∧
    sorted_idxs ≡ₚ [0; 1; 2]%nat.
Proof.
  apply (ranking_is_permutation exact_match "a" ["b"; "a"; "c"]);
    [exact stable_argsort_permutes | done | reflexivity].
Defined.

Lemma ranking_is_descending_witness : (0 <= 1)%Q.
Proof.
  apply (ranking_is_descending exact_match "a" ["b"; "a"; "c"]
           [0%Q; 1%Q; 0%Q] [1; 2; 0]%nat 0 1 1 2 1%Q 0%Q);
    [exact stable_argsort_sorts | reflexivity | lia | reflexivity..].
Defined.

(** ** The outcomes of the consensus *)

(** X8. The outcomes of [semantic_consensus_weighting]. A value it returns
    is one of the outputs, and it returns one exactly for a list of outputs
    that is not empty and a similarity call that does not raise: the index
    [np.argmax] gives is always in range then. On the empty list the
    similarity of the array of shape [(0,)] with itself is one by one, the
    index is 0, and [outputs[0]] raises [IndexError]. *)
Theorem semantic_consensus_weighting_outcomes (be : Backend) (outputs : list string) :
  match semantic_consensus_weighting be outputs with
  | inr out =>
      out ∈ outputs ∧
      similarity_raises be (map (embed be) outputs) (map (embed be) outputs) = false
  | inl e =>
      (outputs = [] ∧ e = IndexError) ∨
      (outputs ≠ [] ∧ e = ProviderError ∧
       similarity_raises be (map (embed be) outputs) (map (embed be) outputs) = true)
  end.
Proof.
  destruct (decide (outputs = [])) as [->|Hne]; [by left|].
  unfold semantic_consensus_weighting. rewrite (_encode_list be outputs Hne).
  rewrite similarity_batches by done. cbn [batch].
  destruct (similarity_raises be _ _); [by right|]. simpl.
  set (aggregated_scores := row_sums _).
  assert (length aggregated_scores = length outputs) as Hlen.
  { unfold aggregated_scores, row_sums. by rewrite !length_map. }
  destruct aggregated_scores as [|x l] eqn:Eagg.
  { destruct outputs; [done | discriminate]. }
  destruct (argmax_spec x l) as (b & vb & -> & Hb & _). simpl.
  pose proof (lookup_lt_Some _ _ _ Hb) as Hlt. rewrite Hlen in Hlt.
  destruct (lookup_lt_is_Some_2 outputs b Hlt) as [out Hout].
  unfold index. rewrite Hout. split; [|done]. by eapply list_elem_of_lookup_2.
Qed.

(** ** The examples of get_context *)

Lemma mapM_length {A B} (f : A → result B) (l : list A) (ys : list B) :
  mapM f l = inr ys → length ys = length l.
Proof.
  revert ys. induction l as [|x l IH]; intros ys; simpl; [by intros [= <-]|].
  destruct (f x) as [e|y]; [done|]. simpl.
  destruct (mapM f l) as [e|ys']; [done|]. simpl. intros [= <-]. simpl.
  f_equal. by apply IH.
Qed.

Lemma slice_to_length {A} (k : Z) (l : list A) :
  0 ≤ k → length (slice_to k l) = (Z.to_nat k `min` length l)%nat.
Proof.
  intros Hk. unfold slice_to. destruct (Z.leb_spec 0 k); [|lia]. by rewrite length_take.
Qed.

Lemma enumerate_length {A} (l : list A) : length (enumerate l) = length l.
Proof. unfold enumerate. rewrite length_zip_with, length_seq. lia. Qed.

(** There is one example per ranked document taken. *)
Lemma build_examples_length (ds : Dataset) (i : nat) (retr_text retr_gt : list string)
    (k : Z) (sorted_idxs : list nat) (examples : list string) :
  build_examples ds i retr_text retr_gt k sorted_idxs = inr examples →
  length examples = length (slice_to k sorted_idxs).
Proof.
  unfold build_examples.
  destruct (mapM (index retr_text) _) as [e|texts] eqn:Htexts; [done|]. simpl.
  destruct (mapM (index retr_gt) _) as [e|gts] eqn:Hgts; [done|]. simpl.
  apply mapM_length in Htexts, Hgts.
  match goal with
  | |- bind_result ?r _ = _ → _ => destruct r as [e|doc_ratings]; [done|]
  end.
  simpl. intros Hrun%mapM_length.
  rewrite Hrun, enumerate_length, length_zip_with. lia.
Qed.

Section Examples.
Variables (be : Backend) (ds : Dataset) (n_queries : nat).
Variables (retr_texts retr_gts : list (list string)) (k : Z).

Local Abbreviation pass := (get_context_step be ds n_queries retr_texts retr_gts k).

(** A pass that returns has appended one list of examples, one example per
    ranked document taken. *)
Lemma get_context_step_examples (st st' : ctx_state) (i : nat) (query : string)
    (d d' : disk) :
  pass st (i, query) d = Ok st' d' →
  ∃ (sorted_idxs : list nat) (examples : list string),
    all_examples st' = (all_examples st ++ [examples])%list ∧
    length examples = length (slice_to k sorted_idxs).
Proof.
  destruct (retr_texts !! i) as [retr_text|] eqn:Htext;
    [|by rewrite get_context_step_no_subject; auto].
  destruct (retr_gts !! i) as [retr_gt|] eqn:Hgt;
    [|by rewrite get_context_step_no_subject; auto].
  destruct (all_idxs st !! i) as [sorted_idxs|] eqn:Hhit.
  - rewrite (get_context_step_hit _ _ _ _ _ _ _ _ _ _ _ _ _ Htext Hgt Hhit).
    destruct (build_examples _ _ _ _ _ _) as [e|examples] eqn:Hbuild; [done|].
    intros [= <- _]. exists sorted_idxs, examples.
    split; [done | by eapply build_examples_length].
  - apply lookup_ge_None in Hhit.
    rewrite (get_context_step_fresh _ _ _ _ _ _ _ _ _ _ _ _ Htext Hgt Hhit).
    destruct (get_retrieval_results _ _ _) as [e|[sc [sorted_idxs|m]]]; [done| |done].
    cbv zeta.
    destruct (build_examples _ _ _ _ _ _) as [e|examples] eqn:Hbuild; [done|].
    intros [= <- _]. exists sorted_idxs, examples.
    split; [done | by eapply build_examples_length].
Qed.

Lemma foldM_examples (l : list (nat * string)) (st st' : ctx_state) (d d' : disk) :
  foldM pass st l d = Ok st' d' →
  ∃ new : list (list string),
    all_examples st' = (all_examples st ++ new)%list ∧
    length new = length l ∧
    Forall (fun examples => ∃ sorted_idxs : list nat,
              length examples = length (slice_to k sorted_idxs)) new.
Proof.
  revert st d. induction l as [|[i query] l IH]; intros st d; cbn [foldM].
  - intros [= <- _]. exists []. by rewrite app_nil_r.
  - unfold bind. destruct (pass st (i, query) d) as [st1 d1|e d1|] eqn:Hpass; [|done..].
    intros Hrest.
    destruct (get_context_step_examples _ _ _ _ _ _ Hpass) as (sorted_idxs & examples & Hex & Hlen).
    destruct (IH _ _ Hrest) as (new & Hnew & Hcount & Hall).
    exists (examples :: new). split; [|split].
    + by rewrite Hnew, Hex, <- app_assoc.
    + simpl. by rewrite Hcount.
    + constructor; eauto.
Qed.
End Examples.

(** X9. Whatever the cache file holds, when [get_context] returns: for
    [k = 0] the result is one empty string per query; otherwise it is one
    list of examples per query, and for a positive [k] no list has more than
    [k] examples. *)
Theorem get_context_shape (be : Backend) (ds : Dataset) (queries : list string)
    (retr_texts retr_gts : list (list string)) (k : Z) (d d' : disk) (out : context_out) :
  get_context be ds queries retr_texts retr_gts k d = Ok out d' →
  match out with
  | Flat l => k = 0 ∧ l = replicate (length queries) EmptyString
  | Nested l =>
      k ≠ 0 ∧ length l = length queries ∧
      (0 < k → Forall (fun examples => (length examples ≤ Z.to_nat k)%nat) l)
  end.
Proof.
  unfold get_context. destruct (Z.eqb_spec k 0) as [->|Hk].
  - by intros [= <- _].
  - unfold bind, get_context_upto, bind.
    destruct (check_file d) as [cached d1|e d1|]; [|done..].
    destruct (foldM _ _ _ d1) as [st d2|e d2|] eqn:Hfold; [|done..].
    intros [= <- _].
    destruct (foldM_examples _ _ _ _ _ _ _ _ _ _ _ Hfold) as (new & Hnew & Hcount & Hall).
    cbn [all_examples app] in Hnew. rewrite Hnew. split; [done|]. split.
    + rewrite Hcount, take_ge, enumerate_length by (rewrite enumerate_length; lia). done.
    + intros Hpos. eapply Forall_impl; [exact Hall|].
      intros examples [sorted_idxs ->]. rewrite slice_to_length by lia. lia.
Qed.

Lemma get_context_shape_witness :
  2 ≠ 0 ∧
  length [[field "abstract" "a";
           field "abstract" "c" +:+ nl +:+ field "title" "z" +:+ nl];
          [field "abstract" "x" +:+ nl +:+ field "title" "w" +:+ nl]]
  = length ["a"; "b"] ∧
  (0 < 2 →
   Forall (fun examples : list string => (length examples ≤ Z.to_nat 2)%nat)
     [[field "abstract" "a";
       field "abstract" "c" +:+ nl +:+ field "title" "z" +:+ nl];
      [field "abstract" "x" +:+ nl +:+ field "title" "w" +:+ nl]]).
Proof.
  apply (get_context_shape exact_match plain_dataset ["a"; "b"]
           [["a"; "b"; "c"]; ["x"]] [["a"; "y"; "z"]; ["w"]] 2
           (mkDisk Absent []) (mkDisk (Saved [[0; 2; 1]; [0]]%nat) [Truncated; Absent])
           (Nested [[field "abstract" "a";
                     field "abstract" "c" +:+ nl +:+ field "title" "z" +:+ nl];
                    [field "abstract" "x" +:+ nl +:+ field "title" "w" +:+ nl]])).
  reflexivity.
Defined.

(** ** A run of get_context on well-formed data *)

Lemma slice_to_elem_of {A} (k : Z) (l : list A) (x : A) :
  x ∈ slice_to k l → x ∈ l.
Proof.
  unfold slice_to. destruct (0 <=? k);
    intros [i Hi]%list_elem_of_lookup; apply lookup_take_Some in Hi as [Hi _];
    by eapply list_elem_of_lookup_2.
Qed.

Lemma enumerate_elem_of {A} (l : list A) (j : nat) (x : A) :
  (j, x) ∈ enumerate l → (j < length l)%nat ∧ l !! j = Some x.
Proof.
  unfold enumerate. intros [i Hi]%list_elem_of_lookup.
  apply lookup_zip_with_Some in Hi as (j' & x' & [= <- <-] & Hj & Hx).
  apply lookup_seq in Hj as [-> Hlt]. done.
Qed.

(** Example strings are built without an error when every ranked document
    taken exists, with its ground truth and its rating, and the dataset
    names a ground-truth field. *)
Lemma build_examples_ok (ds : Dataset) (i : nat) (retr_text retr_gt : list string)
    (k : Z) (sorted_idxs : list nat) :
  (∀ doc_id : nat, doc_id ∈ slice_to k sorted_idxs → (doc_id < length retr_text)%nat) →
  (length retr_text ≤ length retr_gt)%nat →
  match retr_gt_name ds with
  | GtPair _ _ => (length retr_text ≤ length (get_ratings ds i))%nat
  | GtStr _ => True
  | GtNone => False
  end →
  ∃ examples : list string,
    build_examples ds i retr_text retr_gt k sorted_idxs = inr examples.
Proof.
  intros Hdocs Hgts Hname. unfold build_examples.
  destruct (mapM_Forall2 (index retr_text) (fun _ _ => True) (slice_to k sorted_idxs))
    as (texts & Htexts & _).
  { intros doc_id Hin. destruct (index_lt retr_text doc_id (Hdocs _ Hin)); eauto. }
  destruct (mapM_Forall2 (index retr_gt) (fun _ _ => True) (slice_to k sorted_idxs))
    as (gts & Hgt & _).
  { intros doc_id Hin. specialize (Hdocs _ Hin).
    destruct (index_lt retr_gt doc_id ltac:(lia)); eauto. }
  rewrite Htexts, Hgt. simpl.
  pose proof (mapM_length _ _ _ Htexts) as Hlt. pose proof (mapM_length _ _ _ Hgt) as Hlg.
  destruct (retr_gt_name ds) as [|name|gt rating]; [done| |]; simpl.
  - match goal with
    | |- ∃ _, mapM ?f ?l = _ =>
        destruct (mapM_Forall2 f (fun _ _ => True) l) as (examples & -> & _); [|eauto]
    end.
    intros [j [text g]] _. destruct (String.eqb text g); eauto.
  - destruct (mapM_Forall2 (index (get_ratings ds i)) (fun _ _ => True)
                (slice_to k sorted_idxs)) as (doc_ratings & Hrat & _).
    { intros doc_id Hin. specialize (Hdocs _ Hin).
      destruct (index_lt (get_ratings ds i) doc_id ltac:(lia)); eauto. }
    rewrite Hrat. simpl. pose proof (mapM_length _ _ _ Hrat) as Hlr.
    match goal with
    | |- ∃ _, mapM ?f ?l = _ =>
        destruct (mapM_Forall2 f (fun _ _ => True) l) as (examples & -> & _); [|eauto]
    end.
    intros [j [text g]] [Hj _]%enumerate_elem_of.
    rewrite length_zip_with in Hj.
    destruct (String.eqb text g); [eauto|].
    destruct (index_lt doc_ratings j ltac:(lia)) as [r ->]. simpl. eauto.
Qed.

(** A single query ranked against a pool for which the similarity call
    returns. *)
Lemma ranking_single_ok (be : Backend) (query : string) (documents : list string) :
  argsort_permutes be →
  (∃ m : list (list Q),
     similarity be (_encode be (DStr query)) (_encode be (DList documents)) = inr m) →
  ∃ (sc : scores) (sorted_idxs : list nat),
    get_retrieval_results be (DStr query) (DList documents) = inr (sc, IList sorted_idxs) ∧
    sorted_idxs ≡ₚ seq 0 (length documents).
Proof.
  intros Hperm [Hne Hsim]%similarity_returns.
  rewrite (ranking_single_query be query documents Hne Hsim). cbv zeta.
  eexists _, _. split; [reflexivity|].
  destruct documents as [|d1 [|d2 documents]]; [done..|].
  rewrite reverse_Permutation, (Hperm _). by rewrite !length_map.
Qed.

Section ColdRun.
Variables (be : Backend) (ds : Dataset) (n_queries : nat).
Variables (retr_texts retr_gts : list (list string)) (k : Z).
Hypothesis argsort_ok : argsort_permutes be.
Hypothesis data_ok : aligned ds n_queries retr_texts retr_gts.
Hypothesis name_ok : retr_gt_name ds ≠ GtNone.
Hypothesis k_ok : 0 ≤ k.

Local Abbreviation cold_pass := (get_context_step be ds n_queries retr_texts retr_gts k).

(** The passes over the queries [qs], numbered from [i], when the cache
    holds the rankings of the queries before [i] and no more: every pass
    ranks, and builds [min(k, number of documents)] examples. *)
Lemma foldM_cold_returns (qs : list string) (i : nat) (st : ctx_state) (d : disk) :
  length (all_idxs st) = i →
  (i + length qs ≤ n_queries)%nat →
  (∀ (j : nat) (q : string) (texts : list string),
     (j, q) ∈ zip (seq i (length qs)) qs → retr_texts !! j = Some texts →
     ∃ m : list (list Q),
       similarity be (_encode be (DStr q)) (_encode be (DList texts)) = inr m) →
  ∃ (st' : ctx_state) (d' : disk) (new : list (list string)),
    foldM cold_pass st (zip (seq i (length qs)) qs) d = Ok st' d' ∧
    all_examples st' = (all_examples st ++ new)%list ∧
    Forall2 (fun '(j, _) examples =>
               ∃ texts : list string,
                 retr_texts !! j = Some texts ∧
                 length examples = (Z.to_nat k `min` length texts)%nat)
            (zip (seq i (length qs)) qs) new.
Proof.
  revert i st d.
  induction qs as [|query qs IH]; intros i st d Hlen Hn Hsim; cbn [length seq zip_with foldM].
  - exists st, d, []. rewrite app_nil_r. repeat split. constructor.
  - cbn [length] in Hn.
    destruct (data_ok i ltac:(lia)) as (texts & gts & Htexts & Hgts & Hlg & Hrat).
    destruct (ranking_single_ok be query texts argsort_ok) as (sc & sorted_idxs & Hrank & Hperm).
    { apply (Hsim i query texts); [left | done]. }
    destruct (build_examples_ok ds i texts gts k sorted_idxs) as [examples Hbuild].
    { intros doc_id Hin%slice_to_elem_of. rewrite Hperm in Hin.
      apply elem_of_seq in Hin. lia. }
    { done. }
    { destruct (retr_gt_name ds); done. }
    unfold bind.
    rewrite (get_context_step_fresh be ds n_queries retr_texts retr_gts k st i query d
               texts gts Htexts Hgts ltac:(lia)), Hrank.
    cbv zeta. rewrite Hbuild.
    destruct (IH (S i) (mkCtx (all_idxs st ++ [sorted_idxs])
                              (all_examples st ++ [examples]))
                (if flush_due n_queries i
                 then flushed d (all_idxs st ++ [sorted_idxs]) else d))
      as (st' & d' & new & Hrun & Hnew & Hall).
    { cbn [all_idxs]. rewrite length_app. simpl. lia. }
    { lia. }
    { intros j q t Hin. apply (Hsim j q t). by right. }
    exists st', d', (examples :: new). rewrite Hrun. split; [done|]. split.
    + rewrite Hnew. cbn [all_examples]. by rewrite <- app_assoc.
    + constructor; [|done]. exists texts. split; [done|].
      rewrite (build_examples_length _ _ _ _ _ _ _ Hbuild), slice_to_length by done.
      by rewrite (Permutation_length Hperm), length_seq.
Qed.
End ColdRun.

(** X10. On index-aligned data, with a dataset that names a ground-truth
    field, an argsort that permutes, a similarity call that returns for
    every query and its pool, and [k > 0]: a run of [get_context] that finds
    no cache file returns one list of examples per query, with
    [min(k, number of documents of that query)] examples each, and leaves a
    cache file that holds one ranking per query. *)
Theorem get_context_cold_returns (be : Backend) (ds : Dataset) (queries : list string)
    (retr_texts retr_gts : list (list string)) (k : Z) :
  argsort_permutes be →
  aligned ds (length queries) retr_texts retr_gts →
  retr_gt_name ds ≠ GtNone →
  (∀ (j : nat) (q : string) (texts : list string),
     queries !! j = Some q → retr_texts !! j = Some texts →
     ∃ m : list (list Q),
       similarity be (_encode be (DStr q)) (_encode be (DList texts)) = inr m) →
  0 < k →
  ∃ (out : list (list string)) (d : disk) (rankings : list (list nat)),
    get_context be ds queries retr_texts retr_gts k (mkDisk Absent []) = Ok (Nested out) d ∧
    length out = length queries ∧
    (∀ (j : nat) (examples : list string), out !! j = Some examples →
       ∃ texts : list string,
         retr_texts !! j = Some texts ∧
         length examples = (Z.to_nat k `min` length texts)%nat) ∧
    readable (now d) = Some rankings ∧
    length rankings = length queries.
Proof.
  intros Hperm Hal Hname Hsim Hk.
  destruct (foldM_cold_returns be ds (length queries) retr_texts retr_gts k
              Hperm Hal Hname ltac:(lia) queries 0 (mkCtx [] []) (mkDisk Absent []))
    as (st & d & new & Hrun & Hnew & Hall); [done | lia | |].
  { intros j q texts Hin. apply enumerate_elem_of in Hin as [_ Hq]. by apply Hsim. }
  cbn [all_examples app] in Hnew.
  pose proof (get_context_upto_inv be ds queries retr_texts retr_gts k Absent
                (length queries)) as Hinv.
  assert (get_context_upto (length queries) be ds queries retr_texts retr_gts k
            (mkDisk Absent []) = Ok st d) as Hupto.
  { unfold get_context_upto, bind.
    rewrite (check_file_readable (mkDisk Absent []) [] eq_refl).
    by rewrite take_ge by (rewrite enumerate_length; lia). }
  rewrite Hupto in Hinv. destruct Hinv as (_ & c & Hc & _ & _ & _ & _ & Hend & _).
  rewrite Hend in Hc by lia.
  destruct (foldM_cold be ds (length queries) retr_texts retr_gts k queries 0
              (mkCtx [] []) st (mkDisk Absent []) d eq_refl Hrun) as (_ & Hlen & _).
  exists new, d, (all_idxs st).
  split; [|split; [|split; [|split]]].
  - unfold get_context. destruct (Z.eqb_spec k 0); [lia|].
    unfold bind. by rewrite Hupto, Hnew.
  - apply Forall2_length in Hall. rewrite <- Hall. apply enumerate_length.
  - intros j examples Hj.
    destruct (Forall2_lookup_r _ _ _ _ _ Hall Hj) as ([j' q] & Hjq & Hprop).
    apply lookup_zip_with_Some in Hjq as (j'' & q' & [= <- <-] & Hseq & _).
    apply lookup_seq in Hseq as [-> _]. done.
  - done.
  - done.
Qed.

Lemma get_context_cold_returns_witness :
  ∃ (out : list (list string)) (d : disk) (rankings : list (list nat)),
    get_context exact_match plain_dataset ["a"; "b"]
      [["a"; "b"; "c"]; ["x"]] [["a"; "y"; "z"]; ["w"]] 2 (mkDisk Absent [])
    = Ok (Nested out) d ∧
    length out = 2%nat ∧
    readable (now d) = Some rankings ∧
    length rankings = 2%nat.
Proof.
  destruct (get_context_cold_returns exact_match plain_dataset ["a"; "b"]
              [["a"; "b"; "c"]; ["x"]] [["a"; "y"; "z"]; ["w"]] 2)
    as (out & d & rankings & Hrun & Hlen & _ & Hfile & Hcount).
  - exact stable_argsort_permutes.
  - intros [|[|ce]] Hce; [| |simpl in Hce; lia]; simpl; eexists _, _;
      repeat split; simpl; lia.
  - done.
  - intros [|[|j]] q texts Hq Ht; simplify_eq/=; by eexists.
  - lia.
  - exists out, d, rankings. repeat split; assumption.
Defined.

(** ** Resuming from a partial cache *)

Section Resume.
Variables (be : Backend) (ds : Dataset) (n_queries : nat).
Variables (retr_texts retr_gts : list (list string)) (k : Z).

Local Abbreviation run_pass := (get_context_step be ds n_queries retr_texts retr_gts k).

(** A run from a cache that holds exactly the rankings of the queries
    before [i], and a second run whose cache holds these and any number of
    the rankings the first run goes on to compute: the second run returns
    too, with the same examples and the same final cache. *)
Lemma foldM_resume (qs : list string) (i : nat) (st1 st1' : ctx_state) (d1 d1' : disk) :
  length (all_idxs st1) = i →
  foldM run_pass st1 (zip (seq i (length qs)) qs) d1 = Ok st1' d1' →
  ∃ new : list (list string),
    all_examples st1' = (all_examples st1 ++ new)%list ∧
    ∀ (st2 : ctx_state) (d2 : disk),
      all_idxs st1 `prefix_of` all_idxs st2 →
      all_idxs st2 `prefix_of` all_idxs st1' →
      ∃ d2' : disk,
        foldM run_pass st2 (zip (seq i (length qs)) qs) d2
        = Ok (mkCtx (all_idxs st1') (all_examples st2 ++ new)) d2'.
Proof.
  revert i st1 d1.
  induction qs as [|query qs IH]; intros i st1 d1 Hlen; cbn [length seq zip_with foldM].
  - intros [= <- _]. exists []. split; [by rewrite app_nil_r|].
    intros [idxs2 exs2] d2 Hle Hge. cbn [all_idxs all_examples] in *.
    exists d2. rewrite app_nil_r. unfold ret. do 2 f_equal. by apply (anti_symm prefix).
  - unfold bind at 1.
    destruct (run_pass st1 (i, query) d1) as [st1a d1a|e d1a|] eqn:Hstep; [|done..].
    intros Hrest.
    destruct (retr_texts !! i) as [retr_text|] eqn:Htext;
      [|by rewrite get_context_step_no_subject in Hstep; auto].
    destruct (retr_gts !! i) as [retr_gt|] eqn:Hgt;
      [|by rewrite get_context_step_no_subject in Hstep; auto].
    rewrite (get_context_step_fresh be ds n_queries retr_texts retr_gts k st1 i query d1
               retr_text retr_gt Htext Hgt ltac:(lia)) in Hstep.
    destruct (get_retrieval_results be (DStr query) (DList retr_text))
      as [e|[sc [sorted_idxs|m]]] eqn:Hrank; [done| |done].
    cbv zeta in Hstep.
    destruct (build_examples ds i retr_text retr_gt k sorted_idxs)
      as [e|examples] eqn:Hbuild; [done|].
    injection Hstep as <- <-.
    assert (length (all_idxs (mkCtx (all_idxs st1 ++ [sorted_idxs])
                                    (all_examples st1 ++ [examples]))) = S i) as Hlen'.
    { cbn [all_idxs]. rewrite length_app. simpl. lia. }
    destruct (foldM_cold be ds n_queries retr_texts retr_gts k qs (S i) _ _ _ _ Hlen' Hrest)
      as (Hfinal & _ & _).
    cbn [all_idxs] in Hfinal.
    destruct (IH (S i) _ _ Hlen' Hrest) as (new & Hnew & Hresume).
    cbn [all_idxs all_examples] in Hnew, Hresume.
    exists (examples :: new). split; [by rewrite Hnew, <- app_assoc|].
    intros [idxs2 exs2] d2 Hle Hge. cbn [all_idxs all_examples] in *.
    unfold bind.
    destruct (idxs2 !! i) as [cached_idxs|] eqn:Hhit.
    + assert (cached_idxs = sorted_idxs) as ->.
      { pose proof (prefix_lookup_Some _ _ _ _ Hhit Hge) as Hf.
        assert ((all_idxs st1 ++ [sorted_idxs])%list !! i = Some sorted_idxs) as Hs
          by (rewrite lookup_app_r by lia; by rewrite Hlen, Nat.sub_diag).
        pose proof (prefix_lookup_Some _ _ _ _ Hs Hfinal). congruence. }
      rewrite (get_context_step_hit be ds n_queries retr_texts retr_gts k
                 (mkCtx idxs2 exs2) i query d2 retr_text retr_gt sorted_idxs
                 Htext Hgt Hhit), Hbuild.
      cbn [all_idxs all_examples].
      destruct (Hresume (mkCtx idxs2 (exs2 ++ [examples])) d2) as [d2' Hrun2].
      * cbn [all_idxs]. destruct Hle as [rest ->].
        rewrite lookup_app_r in Hhit by lia. rewrite Hlen, Nat.sub_diag in Hhit.
        destruct rest as [|r rest]; [done|]. injection Hhit as ->.
        exists rest. by rewrite <- app_assoc.
      * done.
      * exists d2'. rewrite Hrun2. cbn [all_examples]. by rewrite <- app_assoc.
    + apply lookup_ge_None in Hhit.
      assert (idxs2 = all_idxs st1) as ->.
      { symmetry. apply prefix_length_eq; [done | lia]. }
      rewrite (get_context_step_fresh be ds n_queries retr_texts retr_gts k
                 (mkCtx (all_idxs st1) exs2) i query d2 retr_text retr_gt
                 Htext Hgt ltac:(cbn [all_idxs]; lia)), Hrank.
      cbv zeta. rewrite Hbuild. cbn [all_idxs all_examples].
      edestruct (Hresume (mkCtx (all_idxs st1 ++ [sorted_idxs]) (exs2 ++ [examples])))
        as [d2' Hrun2]; [done | done |].
      exists d2'. rewrite Hrun2. cbn [all_examples]. by rewrite <- app_assoc.
Qed.
End Resume.

(** X11. A run of [get_context] can be resumed. If the run that finds no
    cache file returns [out] and leaves the rankings [rankings] in the file,
    then a run on the same inputs from a file that holds any prefix of
    [rankings] (what an interrupted run left) returns [out] as well, and
    leaves [rankings] in the file. *)
Theorem get_context_resume (be : Backend) (ds : Dataset) (queries : list string)
    (retr_texts retr_gts : list (list string)) (k : Z) (out : context_out) (d : disk)
    (f : file) (partial rankings : list (list nat)) :
  get_context be ds queries retr_texts retr_gts k (mkDisk Absent []) = Ok out d →
  readable (now d) = Some rankings →
  readable f = Some partial →
  partial `prefix_of` rankings →
  ∃ d' : disk,
    get_context be ds queries retr_texts retr_gts k (mkDisk f []) = Ok out d' ∧
    readable (now d') = Some rankings.
Proof.
  unfold get_context. destruct (k =? 0).
  - intros [= <- <-] [= <-] Hf Hpre. apply prefix_nil_inv in Hpre as ->. eauto.
  - unfold bind.
    pose proof (get_context_upto_inv be ds queries retr_texts retr_gts k Absent
                  (length queries)) as Hinv.
    pose proof (get_context_upto_inv be ds queries retr_texts retr_gts k f
                  (length queries)) as Hinv2.
    destruct (get_context_upto _ _ _ _ _ _ _ (mkDisk Absent [])) as [st d1|e d1|] eqn:Hcold;
      [|done..].
    intros [= <- <-] Hrankings Hf Hpre.
    destruct Hinv as (_ & c & Hc & _ & _ & _ & _ & Hend & _).
    rewrite Hend in Hc by lia. rewrite Hrankings in Hc. injection Hc as ->.
    unfold get_context_upto, bind in Hcold, Hinv2 |- *.
    rewrite (check_file_readable (mkDisk Absent []) [] eq_refl) in Hcold.
    rewrite (check_file_readable (mkDisk f []) partial Hf) in Hinv2 |- *.
    rewrite take_ge in * by (rewrite enumerate_length; lia).
    unfold enumerate in *.
    destruct (foldM_resume be ds (length queries) retr_texts retr_gts k queries 0
                (mkCtx [] []) st (mkDisk Absent []) d1 eq_refl Hcold)
      as (new & Hnew & Hresume).
    destruct (Hresume (mkCtx partial []) (mkDisk f [])) as [d2 Hrun2];
      [by apply prefix_nil | done |].
    rewrite Hrun2 in Hinv2 |- *.
    destruct Hinv2 as (_ & c2 & Hc2 & _ & _ & _ & _ & Hend2 & _).
    exists d2. cbn [all_examples all_idxs app] in *. rewrite Hnew. split; [done|].
    rewrite Hc2. f_equal. apply Hend2. lia.
Qed.

Lemma get_context_resume_witness :
  ∃ d' : disk,
    get_context exact_match plain_dataset ["a"; "b"]
      [["a"; "b"; "c"]; ["x"]] [["a"; "y"; "z"]; ["w"]] 2
      (mkDisk (Saved [[0; 2; 1]%nat]) [])
    = Ok (Nested [[field "abstract" "a";
                   field "abstract" "c" +:+ nl +:+ field "title" "z" +:+ nl];
                  [field "abstract" "x" +:+ nl +:+ field "title" "w" +:+ nl]]) d' ∧
    readable (now d') = Some [[0; 2; 1]; [0]]%nat.
Proof.
  apply (get_context_resume exact_match plain_dataset ["a"; "b"]
           [["a"; "b"; "c"]; ["x"]] [["a"; "y"; "z"]; ["w"]] 2 _
           (mkDisk (Saved [[0; 2; 1]; [0]]%nat) [Truncated; Absent])
           (Saved [[0; 2; 1]%nat]) [[0; 2; 1]%nat]);
    [reflexivity | reflexivity | reflexivity | by exists [[0%nat]]].
Defined.

(** * Properties of the configuration of a model *)

Lemma name_token_var_cases (model_name : string) :
  name_token_var model_name = "max_output_tokens" ∨
  name_token_var model_name = "max_tokens" ∨
  name_token_var model_name = "max_new_tokens".
Proof.
  unfold name_token_var. destruct (String.eqb _ _); [by left|].
  destruct (get_model_type model_name); auto.
Qed.

Lemma has_key_true {V} (key : string) (g : gmap string V) :
  has_key key g = true ↔ is_Some (g !! key).
Proof. unfold has_key. apply bool_decide_eq_true. Qed.

(** X12. The parameters [get_gen_params] returns name a token limit under
    the key of the model family exactly when the caller passed no
    parameters at all, or parameters that name a limit under one of the
    three spellings; parameters without any limit come back without one. *)
Theorem get_gen_params_has_limit {V} (limit_512 : V) (model_name : string)
    (gen_params : option (gmap string V)) :
  is_Some (get_gen_params limit_512 model_name gen_params !! name_token_var model_name)
  ↔ match gen_params with
    | None => True
    | Some g =>
        is_Some (g !! "max_new_tokens") ∨ is_Some (g !! "max_tokens")
        ∨ is_Some (g !! "max_output_tokens")
    end.
Proof.
  unfold get_gen_params. destruct gen_params as [g|].
  2: { rewrite lookup_singleton_eq. split; eauto. }
  unfold has_key, rename_key.
  destruct (name_token_var_cases model_name) as [-> | [-> | ->]];
    destruct (g !! "max_new_tokens") as [v1|] eqn:H1;
    destruct (g !! "max_tokens") as [v2|] eqn:H2;
    destruct (g !! "max_output_tokens") as [v3|] eqn:H3;
    repeat case_bool_decide; simpl;
    rewrite ?H1, ?H2, ?H3, ?lookup_insert_eq;
    try (split; [intros _|intros _]; eauto; fail);
    try (exfalso; eauto; fail);
    split; intros Hlim; try (destruct Hlim as [Hlim|[Hlim|Hlim]]);
    by apply is_Some_None in Hlim.
Qed.

(** X13. When the caller's parameters name the token limit under exactly
    one of the three spellings, [get_gen_params] moves its value to the
    spelling of the model family and touches nothing else. *)
Theorem get_gen_params_renames {V} (limit_512 : V) (model_name : string)
    (g : gmap string V) (key : string) (v : V) :
  key ∈ ["max_new_tokens"; "max_tokens"; "max_output_tokens"] →
  g !! key = Some v →
  (∀ other : string,
     other ∈ ["max_new_tokens"; "max_tokens"; "max_output_tokens"] →
     other ≠ key → g !! other = None) →
  get_gen_params limit_512 model_name (Some g)
  = <[name_token_var model_name := v]> (delete key g).
Proof.
  intros Hkey Hv Hothers.
  assert (∀ name : string, name = key → g = <[name := v]> (delete key g)) as Hsame.
  { intros name ->. by rewrite insert_delete_eq, insert_id. }
  unfold get_gen_params, has_key, rename_key.
  destruct (name_token_var_cases model_name) as [-> | [-> | ->]];
    repeat (apply elem_of_cons in Hkey as [->|Hkey]); try (by apply elem_of_nil in Hkey);
    rewrite ?Hv;
    repeat match goal with
           | |- context [g !! ?k] =>
               rewrite (Hothers k) by (try done; set_solver)
           end;
    repeat case_bool_decide; simpl; rewrite ?Hv;
    try done; try (by apply Hsame);
    exfalso; eauto using is_Some_None.
Qed.

Lemma get_gen_params_renames_witness :
  get_gen_params 512 "GPT-4o"
    (Some (<["max_new_tokens" := 100]> {[ "top_k" := 5 ]} : gmap string Z))
  = <[name_token_var "GPT-4o" := 100]>
      (delete "max_new_tokens" (<["max_new_tokens" := 100]> {[ "top_k" := 5 ]})).
Proof.
  apply (get_gen_params_renames 512 "GPT-4o"
           (<["max_new_tokens" := 100]> {[ "top_k" := 5 ]}) "max_new_tokens" 100).
  - set_solver.
  - reflexivity.
  - intros other Hin Hne.
    repeat (apply elem_of_cons in Hin as [->|Hin]); [done| | |by apply elem_of_nil in Hin];
      reflexivity.
Defined.

(** A model without a tokenizer belongs to one of the three families whose
    tokens are counted by a service. *)
Lemma init_tokenizer_none (model_name : string) :
  init_tokenizer model_name = None →
  String.eqb (family_of model_name) "CLAUDE"
  || String.eqb (family_of model_name) "GPT"
  || String.eqb (family_of model_name) "GEMINI" = true.
Proof.
  unfold init_tokenizer, get_model_type.
  repeat match goal with
         | |- context [if ?b then _ else _] => destruct b; try done
         end.
Qed.

(** X14. [count_tokens] never needs a tokenizer that [init_tokenizer] did
    not load: for a model without a tokenizer (a proprietary one) the count
    comes from a service of the family, whatever the tokenizer field
    holds. *)
Theorem count_tokens_without_tokenizer (model_name : string) (ctx gen : Z)
    (tiktoken gemini claude tokenizer tokenizer' : string → nat) (p : prompt) :
  init_tokenizer model_name = None →
  count_tokens (mkLLM (family_of model_name) ctx gen tiktoken gemini claude tokenizer) p
  = count_tokens (mkLLM (family_of model_name) ctx gen tiktoken gemini claude tokenizer') p.
Proof.
  intros Hnone%init_tokenizer_none. unfold count_tokens. cbn [family].
  destruct (String.eqb (family_of model_name) "GPT"); [done|].
  destruct (String.eqb (family_of model_name) "GEMINI"); [done|].
  destruct (String.eqb (family_of model_name) "CLAUDE"); done.
Qed.

Lemma count_tokens_without_tokenizer_witness :
  count_tokens (mkLLM (family_of "CLAUDE-3-5-SONNET") 10 2 String.length String.length
                  (fun _ => 7%nat) String.length) (PStr "hello")
  = count_tokens (mkLLM (family_of "CLAUDE-3-5-SONNET") 10 2 String.length String.length
                    (fun _ => 7%nat) (fun _ => 0%nat)) (PStr "hello").
Proof.
  apply (count_tokens_without_tokenizer "CLAUDE-3-5-SONNET"). reflexivity.
Defined.

(** * Properties of generate *)

Lemma join_lines_single (s : string) : join_lines [s] = s.
Proof. reflexivity. Qed.

Lemma merged_prompt_tokens (llm : LLM) (model_name : string) (prompt : list turn) :
  count_tokens llm (PTurns (merged_prompt model_name prompt))
  = count_tokens llm (PTurns prompt).
Proof.
  unfold merged_prompt. destruct (_ && _); [|done].
  unfold count_tokens. cbn [map content]. by rewrite join_lines_single.
Qed.

Lemma claude_messages_spec (prompt messages : list turn) (system : option string) :
  claude_messages prompt = (messages, system) →
  (messages = prompt ∨
   ∃ first : turn, prompt = first :: messages ∧ role first = "system" ∧
                   system = Some (content first)) ∧
  (messages = [] → prompt = []) ∧
  (system = None ↔ (length prompt ≤ 1)%nat).
Proof.
  unfold claude_messages. destruct (Nat.ltb_spec 1 (length prompt)) as [Hlen|Hlen].
  - destruct prompt as [|first rest]; [simpl in Hlen; lia|].
    destruct (String.eqb_spec (role first) "system") as [Hrole|Hrole];
      intros [= <- <-]; (split; [|split]).
    + right. by exists first.
    + intros ->. simpl in Hlen. lia.
    + split; [done | lia].
    + by left.
    + done.
    + split; [done | lia].
  - intros [= <- <-]. split; [by left|]. split; [done|]. split; [lia | done].
Qed.

(** X16. A GEMINI model gets no output from [generate]: whatever the
    service answers, the call never returns, and when the service answers
    the call stops on the [UnboundLocalError] of [output = output.text]. *)
Theorem generate_gemini_never_returns {V} (send : request V → failure + response)
    (limit_512 : V) (model_name repo_id : string) (reason : bool)
    (self_gen_params : gmap string V) (prompt : list turn)
    (gen_params : option (gmap string V)) :
  family_of model_name = "GEMINI" →
  get_model_type model_name ≠ GROQ →
  get_model_type model_name ≠ DSAPI →
  (∀ output : string,
     generate send limit_512 model_name repo_id reason self_gen_params prompt gen_params
     ≠ inr output) ∧
  ((∀ req : request V, ∃ r : response, send req = inr r) →
   generate send limit_512 model_name repo_id reason self_gen_params prompt gen_params
   = inl UnboundLocalError).
Proof.
  intros Hfam Hgroq Hdsapi. unfold generate. rewrite Hfam. cbn [String.eqb Ascii.eqb].
  destruct (get_model_type model_name) eqn:Htype; try done; cbn;
    match goal with |- context [send ?req] => destruct (send req) as [e|r] eqn:Hsend end;
    (split; [done|]); intros Hanswers;
    try done;
    match type of Hsend with send ?req = _ => specialize (Hanswers req) end;
    rewrite Hsend in Hanswers; by destruct Hanswers.
Qed.

Lemma generate_gemini_never_returns_witness :
  (∀ output : string,
     generate (fun _ : request Z => inr (Response "hello" EmptyString)) 512
       "GEMINI-1.5-PRO" "gemini-1.5-pro" false {[ "max_output_tokens" := 512 ]}
       [Turn "user" "hi"] None
     ≠ inr output) ∧
  generate (fun _ : request Z => inr (Response "hello" EmptyString)) 512
    "GEMINI-1.5-PRO" "gemini-1.5-pro" false {[ "max_output_tokens" := 512 ]}
    [Turn "user" "hi"] None
  = inl UnboundLocalError.
Proof.
  destruct (generate_gemini_never_returns
              (fun _ : request Z => inr (Response "hello" EmptyString)) 512
              "GEMINI-1.5-PRO" "gemini-1.5-pro" false {[ "max_output_tokens" := 512 ]}
              [Turn "user" "hi"] None) as [Hnever Hstops];
    [reflexivity | done | done |].
  split; [exact Hnever|]. apply Hstops. intros req. by eexists.
Defined.

(** X17. For a CLAUDE model [generate] makes one call of [messages.create]
    and returns the text of its answer. No turn of the prompt is lost on the
    way: the messages are the prompt, or the prompt without a leading system
    turn whose content is then the system prompt; a prompt that is not empty
    is never sent as an empty conversation, and the call names a system
    prompt exactly when the prompt has more than one turn. *)
Theorem generate_claude_keeps_turns {V} (send : request V → failure + response)
    (limit_512 : V) (model_name repo_id : string) (reason : bool)
    (self_gen_params : gmap string V) (prompt : list turn)
    (gen_params : option (gmap string V)) :
  family_of model_name = "CLAUDE" →
  get_model_type model_name ≠ GROQ →
  get_model_type model_name ≠ DSAPI →
  ∃ (messages : list turn) (system : option string) (params : gmap string V),
    generate send limit_512 model_name repo_id reason self_gen_params prompt gen_params
    = sum_map id generated (send (MessagesCreate repo_id messages system params)) ∧
    (messages = prompt ∨
     ∃ first : turn, prompt = first :: messages ∧ role first = "system" ∧
                     system = Some (content first)) ∧
    (messages = [] → prompt = []) ∧
    (system = None ↔ (length prompt ≤ 1)%nat).
Proof.
  intros Hfam Hgroq Hdsapi. unfold generate. rewrite Hfam.
  match goal with |- context [ChatCompletionsCreate _ _ ?gp] => set (params := gp) end.
  destruct (claude_messages prompt) as [messages system] eqn:Hmsg.
  apply claude_messages_spec in Hmsg.
  exists messages, system, params. split; [|exact Hmsg].
  destruct (get_model_type model_name) eqn:Htype; try done; cbn;
    by destruct (send (MessagesCreate repo_id messages system params)).
Qed.

Lemma generate_claude_keeps_turns_witness :
  ∃ (messages : list turn) (system : option string) (params : gmap string Z),
    generate (fun _ : request Z => inr (Response "hello" EmptyString)) 512
      "CLAUDE-3-5-SONNET" "claude-3-5-sonnet" false {[ "max_tokens" := 512 ]}
      [Turn "system" "be brief"; Turn "user" "hi"] None
    = sum_map id generated
        ((fun _ : request Z => inr (Response "hello" EmptyString))
           (MessagesCreate "claude-3-5-sonnet" messages system params)) ∧
    (messages = [Turn "system" "be brief"; Turn "user" "hi"] ∨
     ∃ first : turn,
       [Turn "system" "be brief"; Turn "user" "hi"] = first :: messages ∧
       role first = "system" ∧ system = Some (content first)) ∧
    (messages = [] → [Turn "system" "be brief"; Turn "user" "hi"] = []) ∧
    (system = None ↔ (length [Turn "system" "be brief"; Turn "user" "hi"] ≤ 1)%nat).
Proof.
  apply (generate_claude_keeps_turns
           (fun _ : request Z => inr (Response "hello" EmptyString)) 512
           "CLAUDE-3-5-SONNET" "claude-3-5-sonnet" false {[ "max_tokens" := 512 ]}
           [Turn "system" "be brief"; Turn "user" "hi"] None);
    [reflexivity | done | done].
Defined.

(** X18. For a model run locally (of type default or GGUF and of none of
    the families CLAUDE, GPT and GEMINI) [generate] makes one call, of the
    pipeline or of [create_chat_completion], and returns the text of its
    answer. The prompt it sends counts exactly the tokens [count_tokens]
    counts for the prompt it was given, so the budget computed on the prompt
    holds for what is sent; for MISTRAL and GEMMA the prompt sent has at
    most one turn, for the other families it is the prompt as given. *)
Theorem generate_local_keeps_tokens {V} (llm : LLM)
    (send : request V → failure + response)
    (limit_512 : V) (model_name repo_id : string) (reason : bool)
    (self_gen_params : gmap string V) (prompt : list turn)
    (gen_params : option (gmap string V)) :
  get_model_type model_name = Default ∨ get_model_type model_name = GGUF →
  family_of model_name ∉ ["CLAUDE"; "GPT"; "GEMINI"] →
  ∃ (sent : list turn) (params : gmap string V),
    (generate send limit_512 model_name repo_id reason self_gen_params prompt gen_params
     = sum_map id generated (send (Pipeline sent params)) ∨
     generate send limit_512 model_name repo_id reason self_gen_params prompt gen_params
     = sum_map id generated (send (CreateChatCompletion sent params))) ∧
    count_tokens llm (PTurns sent) = count_tokens llm (PTurns prompt) ∧
    (family_of model_name ∈ ["MISTRAL"; "GEMMA"] → (length sent ≤ 1)%nat) ∧
    (family_of model_name ∉ ["MISTRAL"; "GEMMA"] → sent = prompt).
Proof.
  intros Htype Hfam. unfold generate.
  destruct (String.eqb_spec (family_of model_name) "GPT") as [Hgpt|_];
    [exfalso; apply Hfam; rewrite Hgpt, !elem_of_cons; auto|].
  destruct (String.eqb_spec (family_of model_name) "CLAUDE") as [Hclaude|_];
    [exfalso; apply Hfam; rewrite Hclaude, !elem_of_cons; auto|].
  destruct (String.eqb_spec (family_of model_name) "GEMINI") as [Hgemini|_];
    [exfalso; apply Hfam; rewrite Hgemini, !elem_of_cons; auto|].
  exists (merged_prompt model_name prompt).
  assert ((family_of model_name ∈ ["MISTRAL"; "GEMMA"] →
           (length (merged_prompt model_name prompt) ≤ 1)%nat) ∧
          (family_of model_name ∉ ["MISTRAL"; "GEMMA"] →
           merged_prompt model_name prompt = prompt)) as Hshape.
  { unfold merged_prompt. rewrite !elem_of_cons, elem_of_nil.
    destruct (String.eqb_spec (family_of model_name) "MISTRAL") as [Hm|Hm];
      destruct (String.eqb_spec (family_of model_name) "GEMMA") as [Hg|Hg];
      destruct (Nat.ltb_spec 1 (length prompt)); simpl;
      split; intros Hin; try done; try lia; exfalso; intuition congruence. }
  match goal with |- context [ChatCompletionsCreate _ _ ?gp] => exists gp; set (params := gp) end.
  split; [|split; [apply merged_prompt_tokens | exact Hshape]].
  destruct Htype as [-> | ->]; cbn [orb]; [left | right];
    match goal with |- context [send ?req] => by destruct (send req) end.
Qed.

Lemma generate_local_keeps_tokens_witness :
  ∃ (sent : list turn) (params : gmap string Z),
    (generate (fun _ : request Z => inr (Response "hello" EmptyString)) 512
       "MISTRAL-7B-v0.3" "mistralai/Mistral-7B-Instruct-v0.3" false
       {[ "max_new_tokens" := 512 ]}
       [Turn "system" "be brief"; Turn "user" "hi"] None
     = sum_map id generated
         ((fun _ : request Z => inr (Response "hello" EmptyString)) (Pipeline sent params)) ∨
     generate (fun _ : request Z => inr (Response "hello" EmptyString)) 512
       "MISTRAL-7B-v0.3" "mistralai/Mistral-7B-Instruct-v0.3" false
       {[ "max_new_tokens" := 512 ]}
       [Turn "system" "be brief"; Turn "user" "hi"] None
     = sum_map id generated
         ((fun _ : request Z => inr (Response "hello" EmptyString))
            (CreateChatCompletion sent params))) ∧
    count_tokens (char_llm 100 10) (PTurns sent)
    = count_tokens (char_llm 100 10) (PTurns [Turn "system" "be brief"; Turn "user" "hi"]) ∧
    (family_of "MISTRAL-7B-v0.3" ∈ ["MISTRAL"; "GEMMA"] → (length sent ≤ 1)%nat) ∧
    (family_of "MISTRAL-7B-v0.3" ∉ ["MISTRAL"; "GEMMA"] →
     sent = [Turn "system" "be brief"; Turn "user" "hi"]).
Proof.
  apply (generate_local_keeps_tokens (char_llm 100 10)
           (fun _ : request Z => inr (Response "hello" EmptyString)) 512
           "MISTRAL-7B-v0.3" "mistralai/Mistral-7B-Instruct-v0.3" false
           {[ "max_new_tokens" := 512 ]}
           [Turn "system" "be brief"; Turn "user" "hi"] None).
  - left. reflexivity.
  - vm_compute. intros Hin.
    repeat (apply elem_of_cons in Hin as [Hin|Hin]; [discriminate Hin|]).
    by apply elem_of_nil in Hin.
Defined.
